(** * iffy: a scripted HTTP test runner

    Shallow embedding of the [iffy] package: the cross-call value store and
    its two template functions, the built-in checkers, the call constructor
    and the sequential runner [Tester.Run].

    Go's own libraries (encoding/json, fmt, text/template, net/http) are not
    part of the package; they enter the development as the operations of a
    [GoRuntime], over which every statement is universally quantified.  A
    small concrete runtime, [Ref.runtime], is used to evaluate the
    definitions on examples. *)

From Stdlib Require Import Floats Ascii.
From stdpp Require Import gmap strings list fin_maps pretty.

(** ** Dynamic values *)

(** A Go [error] is observed through its message only. *)
Definition error : Type := string.

(** What an [interface{}] holds in this package: the trees produced by
    [json.Unmarshal] (nil, bool, float64, string, []interface{},
    map[string]interface{}) and the second map type [fieldTmpl] knows,
    map[string]string. A Go map is either nil ([None]) or a table. *)
#[warnings="-register-all"]
Inductive value : Type :=
| VNil
| VBool (b : bool)
| VNum (f : float)
| VStr (s : string)
| VList (l : list value)
| VMap (m : option (gmap string value))
| VStrMap (m : option (gmap string string)).

(** [m[k]] with the comma-ok form: a nil map has no key. *)
Definition map_index {A} (m : option (gmap string A)) (k : string) : option A :=
  match m with
  | Some tbl => tbl !! k
  | None => None
  end.

(** The [%T] verb of fmt on the values above. *)
Definition type_name (i : value) : string :=
  match i with
  | VNil => "<nil>"
  | VBool _ => "bool"
  | VNum _ => "float64"
  | VStr _ => "string"
  | VList _ => "[]interface {}"
  | VMap _ => "map[string]interface {}"
  | VStrMap _ => "map[string]string"
  end.

(** The two dynamic types the type switch of [fieldTmpl] accepts. *)
Definition map_like (i : value) : bool :=
  match i with
  | VMap _ | VStrMap _ => true
  | _ => false
  end.

(** ** The Go libraries the package calls *)

(** The functions a template may call: [template.FuncMap] with its two
    entries. *)
Record FuncMap := {
  fm_field : list string -> value + error;
  fm_json : list string -> value + error
}.

Class GoRuntime := {
  (** [json.Marshal] *)
  json_Marshal : value -> string + error;
  (** [json.Unmarshal(data, &m)] for [m] of type map[string]interface{}:
      the state of [m] afterwards and the error returned. *)
  json_Unmarshal_map :
    string -> option (gmap string value) ->
    option (gmap string value) * option error;
  (** [json.Unmarshal(data, &l)] for [l] of type []interface{}. *)
  json_Unmarshal_list :
    string -> option (list value) -> option (list value) * option error;
  (** [fmt.Sprintf("%v", v)] *)
  fmt_Sprint : value -> string;
  (** [template.New("tmpl").Funcs(funcMap).Parse(s)] *)
  template : Type;
  template_Parse : string -> template + error;
  (** [tmpl.Execute(b, data)]: the bytes written to [b], or the error. *)
  template_Execute :
    template -> FuncMap -> gmap string value -> string + error;
  (** [*http.Request], [http.NewRequest] and [req.Header.Set]. *)
  request : Type;
  http_NewRequest : string -> string -> string -> request + error;
  Header_Set : request -> string -> string -> request
}.

(** ** The value store and its template functions *)

(** [type Values map[string]interface{}]: call name to decoded response. *)
Abbreviation Values := (gmap string value).

Definition no_value : string := "<no value>".

(** One iteration of the loop of [fieldTmpl]: the type switch on [i]. *)
Definition field_step (i : value) (k : string) : value + error :=
  match i with
  | VMap m =>
      match map_index m k with
      | Some x => inl x
      | None => inl (VStr no_value)
      end
  | VStrMap m =>
      match map_index m k with
      | Some s => inl (VStr s)
      | None => inl (VStr no_value)
      end
  | _ => inr ("cannot dereference " +:+ type_name i)
  end.

(** [for _, k := range key { ... }; return i, nil] *)
Fixpoint field_loop (i : value) (key : list string) : value + error :=
  match key with
  | [] => inl i
  | k :: key' =>
      match field_step i k with
      | inl i' => field_loop i' key'
      | inr err => inr err
      end
  end.

Definition fieldTmpl (v : Values) (key : list string) : value + error :=
  field_loop (VMap (Some v)) key.

Section Templating.
Context {rt : GoRuntime}.

Definition jsonFieldTmpl (v : Values) (key : list string) : value + error :=
  match fieldTmpl v key with
  | inr err => inr err
  | inl i =>
      match json_Marshal i with
      | inr err => inr err
      | inl marshalled => inl (VStr marshalled)
      end
  end.

Definition funcMap (v : Values) : FuncMap :=
  {| fm_field := fieldTmpl v; fm_json := jsonFieldTmpl v |}.

Definition Apply (v : Values) (templateStr : string) : string + error :=
  match template_Parse templateStr with
  | inr err => inr err
  | inl tmpl => template_Execute tmpl (funcMap v) v
  end.
End Templating.

(** ** Built-in checkers *)

(** What a checker sees of [*http.Response]: the status code and the body
    stream, which is absent ([nil]) or yields bytes and possibly a read
    error. *)
Record response := {
  StatusCode : Z;
  resp_Body : option (string * option error)
}.

(** [type Checker func(r *http.Response, body string, respObject
    interface{}) error]; [None] is the nil error. *)
Definition Checker (RespObject : Type) : Type :=
  response -> string -> option RespObject -> option error.

Section Checkers.
Context {rt : GoRuntime} {RespObject : Type}.

Definition ExpectStatus (st : Z) : Checker RespObject :=
  fun r body respObject =>
    if bool_decide (StatusCode r ≠ st)
    then Some ("Bad status code: expected " +:+ pretty st +:+
               ", got " +:+ pretty (StatusCode r))
    else None.

Fixpoint fields_loop (m : option (gmap string value)) (fields : list string)
  : option error :=
  match fields with
  | [] => None
  | f :: fields' =>
      match map_index m f with
      | None => Some ("Missing expected field '" +:+ f +:+ "'")
      | Some _ => fields_loop m fields'
      end
  end.

Definition ExpectJSONFields (fields : list string) : Checker RespObject :=
  fun r body respObject =>
    let '(m, err) := json_Unmarshal_map body (Some ∅) in
    match err with
    | Some e => Some e
    | None => fields_loop m fields
    end.

(** [len] of a slice; a nil slice has length 0. *)
Definition slice_len (l : option (list value)) : Z :=
  match l with
  | Some xs => Z.of_nat (length xs)
  | None => 0%Z
  end.

Definition ExpectListLength (len : Z) : Checker RespObject :=
  fun r body respObject =>
    let '(l, err) := json_Unmarshal_list body (Some []) in
    match err with
    | Some e => Some e
    | None =>
        if bool_decide (slice_len l ≠ len)
        then Some ("Expected a list of length " +:+ pretty len +:+
                   ", got " +:+ pretty (slice_len l))
        else None
    end.

Definition ExpectListNonEmpty : Checker RespObject :=
  fun r body respObject =>
    let '(l, err) := json_Unmarshal_list body (Some []) in
    match err with
    | Some e => Some e
    | None =>
        if bool_decide (slice_len l = 0%Z)
        then Some "Expected a non empty list"
        else None
    end.

(** The loop of [ExpectJSONBranch]: [rest] are the nodes still to visit,
    [i] the index of the first of them in [nodes], [m] the map cursor.
    [i == len(nodes)-2] is a comparison of Go ints, so it is made in [Z]:
    for a single node the right-hand side is -1.  [nodes[i+1]] is only
    evaluated under that test; were it out of range Go would panic, which
    the last branch stands for (see [branch_index_in_range]). *)
Fixpoint branch_loop (nodes : list string) (i : nat) (rest : list string)
    (m : option (gmap string value)) : option error :=
  match rest with
  | [] => None
  | n :: rest' =>
      match map_index m n with
      | None => Some ("Missing node '" +:+ n +:+ "'")
      | Some v =>
          match v with
          | VMap child => branch_loop nodes (S i) rest' child
          | _ =>
              if bool_decide (Z.of_nat i = Z.of_nat (length nodes) - 2)%Z
              then
                match nodes !! S i with
                | Some lastNode =>
                    if String.eqb (fmt_Sprint v) lastNode
                    then None
                    else Some ("Wrong value: expected '" +:+ lastNode +:+
                               "', got '" +:+ fmt_Sprint v +:+ "'")
                | None => Some "index out of range"
                end
              else branch_loop nodes (S i) rest' m
          end
      end
  end.

Definition ExpectJSONBranch (nodes : list string) : Checker RespObject :=
  fun r body respObject =>
    let '(m, err) := json_Unmarshal_map body (Some ∅) in
    match err with
    | Some e => Some e
    | None => branch_loop nodes 0 nodes m
    end.
End Checkers.

(** ** Request bodies *)

(** [GetBody] receives the tester's render function and may call it any
    number of times before it returns its stream or an error; each call has
    the runner's effects.  A body is therefore a program over that one
    operation: [BRender s k] renders [s] and continues with the result. *)
Inductive body_prog : Type :=
| BRet (res : string + error)
| BRender (s : string) (k : string -> body_prog).

(** An implementation of the interface supplied by the caller. *)
Record BodyImpl := {
  impl_GetBody : body_prog;
  impl_ContentType : string
}.

(** Modelled from the spec: the [Body] interface and its variants
    [StringBody] and [NoopBody] are declared in a file of the package that
    is not among the sources.  A body is one of the two variants or any
    other implementation of the two operations. *)
Inductive Body : Type :=
| StringBody (s : string)
| NoopBody
| UserBody (impl : BodyImpl).

(** Modelled from the spec: the content type [StringBody] declares is left
    open there, so it is a parameter. *)
Class BodyDecl := { StringBody_ContentType : string }.

(** Modelled from the spec: [GetBody] of the missing variants. [NoopBody]
    yields the empty stream; [StringBody] renders the template it holds and
    returns the result as the stream. *)
Definition GetBody (b : Body) : body_prog :=
  match b with
  | StringBody s => BRender s (fun rendered => BRet (inl rendered))
  | NoopBody => BRet (inl EmptyString)
  | UserBody impl => impl_GetBody impl
  end.

(** Modelled from the spec: [ContentType] of the missing variants; the
    empty string means that no header is set. *)
Definition ContentType {decl : BodyDecl} (b : Body) : string :=
  match b with
  | StringBody _ => StringBody_ContentType
  | NoopBody => EmptyString
  | UserBody impl => impl_ContentType impl
  end.

(** ** Calls *)

(** The [Call] struct, with the fields [AddCall] and [Run] use.  [headers]
    lists the entries of the header map in the order the [range] statement
    of [Run] visits them (a nil map is the empty list); [respObject] is the
    decode target, if one was registered. *)
Module Call.
Record t (RespObject : Type) := mk {
  Name : string;
  Method : string;
  QueryStr : string;
  Body : Body;
  headers : list (string * string);
  respObject : option RespObject;
  checkers : list (Checker RespObject)
}.
Arguments mk {RespObject}.
Arguments Name {RespObject}.
Arguments Method {RespObject}.
Arguments QueryStr {RespObject}.
Arguments Body {RespObject}.
Arguments headers {RespObject}.
Arguments respObject {RespObject}.
Arguments checkers {RespObject}.
End Call.
Abbreviation Call := Call.t.

(** The [body interface{}] argument of [AddCall], by dynamic type: nil, a
    value implementing [Body], a string, or a value of any other type. *)
Inductive any : Type :=
| AnyNil
| AnyBody (b : Body)
| AnyString (s : string)
| AnyOther (v : value).

(** ** The tester *)

(** The kinds of failure [Run] reports. *)
Inductive failure : Type :=
| RenderFailure
| BodyFailure
| RequestFailure
| ReadFailure
| DecodeFailure
| CheckFailure.

(** What [Run] does that can be observed, in the order it happens.
    [Failed] is a call of [t.t.Error] or [t.t.Errorf]; the others mark the
    start of a loop iteration, the call of the handler (with the rendered
    URL), the read of the response body, the write of the store and the
    call of a checker. *)
Inductive event : Type :=
| Started (name : string)
| Failed (kind : failure) (msg : string)
| Served (name url : string)
| BodyRead (name rb : string)
| Stored (name : string) (v : value)
| Checked (name : string) (n : nat) (res : option error).

(** [t] is the log of the [*testing.T] (with the other events interleaved),
    [r] the state of the handler under test. *)
Record Tester (Handler RespObject : Type) := mkTester {
  t : list event;
  r : Handler;
  Calls : list (Call RespObject);
  values : Values
}.
Arguments mkTester {Handler RespObject}.
Arguments t {Handler RespObject}.
Arguments r {Handler RespObject}.
Arguments Calls {Handler RespObject}.
Arguments values {Handler RespObject}.

Definition NewTester {Handler RespObject : Type}
    (log : list event) (h : Handler) (calls : list (Call RespObject))
  : Tester Handler RespObject :=
  {| t := log; r := h; values := ∅; Calls := calls |}.

Definition AddCall {Handler RespObject : Type}
    (tst : Tester Handler RespObject)
    (name method querystr : string) (body : any)
  : Call RespObject * Tester Handler RespObject :=
  let bodyInterface :=
    match body with
    | AnyBody b => b
    | AnyString val =>
        if String.eqb val EmptyString then NoopBody else StringBody val
    | _ => NoopBody
    end in
  let c := Call.mk name method querystr bodyInterface [] None [] in
  (c, {| t := t tst; r := r tst; values := values tst;
         Calls := Calls tst ++ [c] |}).

(** ** The runner *)

(** [Run] threads the tester through every step; the steps are written in a
    state monad over it. *)
Definition M (S A : Type) : Type := S -> A * S.

Definition ret {S A} (a : A) : M S A := fun st => (a, st).

Definition bind {S A B} (m : M S A) (k : A -> M S B) : M S B :=
  fun st => let '(a, st') := m st in k a st'.

Notation "'let!' x ':=' m 'in' k" := (bind m (fun x => k))
  (at level 10, x name, m at level 100, k at level 200).
Notation "'run!' m 'in' k" := (bind m (fun _ => k))
  (at level 10, m at level 100, k at level 200).

Section Runner.
Context {rt : GoRuntime} {decl : BodyDecl}.
Context {Handler RespObject : Type}.
(** [t.r.ServeHTTP(w, req)] followed by [w.Result()]. *)
Context (ServeHTTP : Handler -> request -> Handler * response).
(** [json.Unmarshal(rb, c.respObject)]: the target afterwards and the
    error returned. *)
Context (json_Unmarshal_into :
           string -> RespObject -> RespObject * option error).

Abbreviation St := (Tester Handler RespObject).

Definition emit (e : event) : M St unit :=
  fun st => (tt, {| t := t st ++ [e]; r := r st; Calls := Calls st;
                    values := values st |}).

(** [t.t.Error(err)] *)
Definition report (kind : failure) (err : error) : M St unit :=
  emit (Failed kind err).

Definition applyTemplate (s : string) : M St string :=
  fun st =>
    match Apply (values st) s with
    | inr err => (run! report RenderFailure err in ret EmptyString) st
    | inl b => (b, st)
    end.

(** [c.Body.GetBody(t.applyTemplate)] *)
Fixpoint run_body (p : body_prog) : M St (string + error) :=
  match p with
  | BRet res => ret res
  | BRender s k => let! rendered := applyTemplate s in run_body (k rendered)
  end.

(** [for k, v := range c.headers { req.Header.Set(...) }] *)
Fixpoint set_headers (hs : list (string * string)) (req : request)
  : M St request :=
  match hs with
  | [] => ret req
  | (k, v) :: hs' =>
      let! k' := applyTemplate k in
      let! v' := applyTemplate v in
      set_headers hs' (Header_Set req k' v')
  end.

Definition serve (name url : string) (req : request) : M St response :=
  fun st =>
    let '(h, resp) := ServeHTTP (r st) req in
    (resp, {| t := t st ++ [Served name url]; r := h; Calls := Calls st;
              values := values st |}).

(** [t.values[name] = v] *)
Definition set_value (name : string) (v : value) : M St unit :=
  fun st => (tt, {| t := t st ++ [Stored name v]; r := r st;
                    Calls := Calls st;
                    values := <[name := v]> (values st) |}).

(** [for _, checker := range c.checkers { ... }]; [n] counts them. *)
Fixpoint run_checkers (name : string) (resp : response) (respBody : string)
    (respObject : option RespObject) (n : nat)
    (cs : list (Checker RespObject)) : M St unit :=
  match cs with
  | [] => ret tt
  | checker :: cs' =>
      let err := checker resp respBody respObject in
      run! emit (Checked name n err) in
      run! match err with
           | Some e => report CheckFailure (name +:+ ": " +:+ e)
           | None => ret tt
           end in
      run_checkers name resp respBody respObject (S n) cs'
  end.

(** The generic capture and the checkers, once the typed decode is
    through: [respObject] is the target as the decode left it. *)
Definition store_and_check (c : Call RespObject) (resp : response)
    (rb : string) (respObject : option RespObject) : M St unit :=
  let retJson := fst (json_Unmarshal_map rb None) in
  run! set_value (Call.Name c) (VMap retJson) in
  run_checkers (Call.Name c) resp rb respObject 0 (Call.checkers c).

(** The part of the loop body after [resp := w.Result()]. *)
Definition handle_response (c : Call RespObject) (resp : response)
  : M St unit :=
  match resp_Body resp with
  | Some (rb, rerr) =>
      run! emit (BodyRead (Call.Name c) rb) in
      run! match rerr with
           | Some e => report ReadFailure e
           | None => ret tt
           end in
      match Call.respObject c with
      | Some target =>
          let '(target', err) := json_Unmarshal_into rb target in
          match err with
          | Some e => report DecodeFailure e
          | None => store_and_check c resp rb (Some target')
          end
      | None => store_and_check c resp rb None
      end
  | None =>
      run_checkers (Call.Name c) resp EmptyString (Call.respObject c) 0
        (Call.checkers c)
  end.

(** One iteration of the loop of [Run]; each [continue] is a branch that
    ends the iteration. *)
Definition run_call (c : Call RespObject) : M St unit :=
  run! emit (Started (Call.Name c)) in
  let! body := run_body (GetBody (Call.Body c)) in
  match body with
  | inr err => report BodyFailure err
  | inl body =>
      let! url := applyTemplate (Call.QueryStr c) in
      match http_NewRequest (Call.Method c) url body with
      | inr err => report RequestFailure err
      | inl req =>
          let contentType := ContentType (Call.Body c) in
          let req :=
            if String.eqb contentType EmptyString then req
            else Header_Set req "content-type" (ContentType (Call.Body c)) in
          let! req := set_headers (Call.headers c) req in
          let! resp := serve (Call.Name c) url req in
          handle_response c resp
      end
  end.

Fixpoint run_calls (cs : list (Call RespObject)) : M St unit :=
  match cs with
  | [] => ret tt
  | c :: cs' => run! run_call c in run_calls cs'
  end.

Definition Run (tst : St) : St := snd (run_calls (Calls tst) tst).
End Runner.

(** * A concrete runtime for the examples

    The statements below hold for every [GoRuntime].  To evaluate them on
    examples, [Ref] implements the operations on a fragment where Go's
    behaviour is simple to write down: JSON texts without [\u] escapes
    whose numbers are integers, values printed by [%v] whose numbers are
    integers of at most six digits, templates made of text and of the
    actions [{{field "k" ...}}] and [{{json "k" ...}}], and requests whose
    method is a token and whose URL has no control character.  Outside the
    fragment the functions answer with an error or a placeholder of their
    own. *)
Module Ref.

Definition dq : ascii := "034"%char.
Definition backslash : ascii := "092"%char.

(** [quote s] is [s] between double quotes. *)
Definition quote (s : string) : string :=
  String dq (s +:+ String dq EmptyString).

Definition is_ws (c : ascii) : bool :=
  let n := nat_of_ascii c in
  Nat.eqb n 32 || Nat.eqb n 9 || Nat.eqb n 10 || Nat.eqb n 13.

Definition is_digit (c : ascii) : bool :=
  let n := nat_of_ascii c in Nat.leb 48 n && Nat.leb n 57.

Definition is_control (c : ascii) : bool :=
  let n := nat_of_ascii c in Nat.ltb n 32 || Nat.eqb n 127.

Fixpoint skip_ws (s : string) : string :=
  match s with
  | String c s' => if is_ws c then skip_ws s' else s
  | EmptyString => s
  end.

Fixpoint strip_prefix (p s : string) : option string :=
  match p, s with
  | EmptyString, _ => Some s
  | String a p', String b s' =>
      if Ascii.eqb a b then strip_prefix p' s' else None
  | String _ _, EmptyString => None
  end.

(** *** Numbers *)

Definition float_of_Z (z : Z) : float :=
  if (z <? 0)%Z then PrimFloat.opp (PrimFloat.of_uint63 (Uint63.of_Z (- z)))
  else PrimFloat.of_uint63 (Uint63.of_Z z).

(** The integer a float is, when it is one. *)
Definition Z_of_float (f : float) : option Z :=
  match Prim2SF f with
  | S754_zero _ => Some 0%Z
  | S754_finite sign m e =>
      let mag :=
        if (0 <=? e)%Z then Some (Z.pos m * 2 ^ e)%Z
        else if (Z.pos m mod 2 ^ (- e) =? 0)%Z
             then Some (Z.pos m / 2 ^ (- e))%Z
             else None in
      if sign then Z.opp <$> mag else mag
  | _ => None
  end.

Fixpoint read_digits (acc : Z) (s : string) : Z * string :=
  match s with
  | String c s' =>
      if is_digit c
      then read_digits (10 * acc + (Z.of_nat (nat_of_ascii c) - 48))%Z s'
      else (acc, s)
  | EmptyString => (acc, s)
  end.

(** After the digits of an integer nothing of a fraction or an exponent
    may follow. *)
Definition ends_number (s : string) : bool :=
  match s with
  | String c _ =>
      negb (Ascii.eqb c "."%char || Ascii.eqb c "e"%char ||
            Ascii.eqb c "E"%char)
  | EmptyString => true
  end.

Definition read_number (s : string) : option (value * string) :=
  let '(neg, s1) :=
    match s with
    | String c s' => if Ascii.eqb c "-"%char then (true, s') else (false, s)
    | EmptyString => (false, s)
    end in
  match s1 with
  | String c s2 =>
      if is_digit c then
        let '(z, rest) := read_digits 0 s1 in
        let leading_zero :=
          Ascii.eqb c "0"%char &&
          match s2 with String d _ => is_digit d | EmptyString => false end in
        if negb leading_zero && ends_number rest
        then Some (VNum (float_of_Z (if neg then - z else z)%Z), rest)
        else None
      else None
  | EmptyString => None
  end.

(** *** JSON texts *)

Definition unescape (c : ascii) : option ascii :=
  if Ascii.eqb c dq then Some dq
  else if Ascii.eqb c backslash then Some backslash
  else if Ascii.eqb c "/"%char then Some "/"%char
  else if Ascii.eqb c "n"%char then Some "010"%char
  else if Ascii.eqb c "r"%char then Some "013"%char
  else if Ascii.eqb c "t"%char then Some "009"%char
  else if Ascii.eqb c "b"%char then Some "008"%char
  else if Ascii.eqb c "f"%char then Some "012"%char
  else None.

(** The rest of a string literal, after its opening quote. *)
Fixpoint read_string (s : string) : option (string * string) :=
  match s with
  | EmptyString => None
  | String c s' =>
      if Ascii.eqb c dq then Some (EmptyString, s')
      else if Ascii.eqb c backslash then
        match s' with
        | String e s'' =>
            match unescape e, read_string s'' with
            | Some ch, Some (str, rest) => Some (String ch str, rest)
            | _, _ => None
            end
        | EmptyString => None
        end
      else if is_control c then None
      else
        match read_string s' with
        | Some (str, rest) => Some (String c str, rest)
        | None => None
        end
  end.

Fixpoint parse_value (fuel : nat) (s : string) : option (value * string) :=
  match fuel with
  | O => None
  | S fuel' =>
      match skip_ws s with
      | EmptyString => None
      | String c s' =>
          if Ascii.eqb c "{"%char then
            match skip_ws s' with
            | String d s'' =>
                if Ascii.eqb d "}"%char then Some (VMap (Some ∅), s'')
                else parse_members fuel' ∅ s'
            | EmptyString => None
            end
          else if Ascii.eqb c "["%char then
            match skip_ws s' with
            | String d s'' =>
                if Ascii.eqb d "]"%char then Some (VList [], s'')
                else parse_elements fuel' [] s'
            | EmptyString => None
            end
          else if Ascii.eqb c dq then
            match read_string s' with
            | Some (str, rest) => Some (VStr str, rest)
            | None => None
            end
          else
            match strip_prefix "true" (String c s'),
                  strip_prefix "false" (String c s'),
                  strip_prefix "null" (String c s') with
            | Some rest, _, _ => Some (VBool true, rest)
            | _, Some rest, _ => Some (VBool false, rest)
            | _, _, Some rest => Some (VNil, rest)
            | _, _, _ => read_number (String c s')
            end
      end
  end
with parse_members (fuel : nat) (acc : gmap string value) (s : string)
  : option (value * string) :=
  match fuel with
  | O => None
  | S fuel' =>
      match skip_ws s with
      | String c s1 =>
          if Ascii.eqb c dq then
            match read_string s1 with
            | Some (k, s2) =>
                match skip_ws s2 with
                | String colon s3 =>
                    if Ascii.eqb colon ":"%char then
                      match parse_value fuel' s3 with
                      | Some (v, s4) =>
                          match skip_ws s4 with
                          | String d s5 =>
                              if Ascii.eqb d ","%char
                              then parse_members fuel' (<[k := v]> acc) s5
                              else if Ascii.eqb d "}"%char
                              then Some (VMap (Some (<[k := v]> acc)), s5)
                              else None
                          | EmptyString => None
                          end
                      | None => None
                      end
                    else None
                | EmptyString => None
                end
            | None => None
            end
          else None
      | EmptyString => None
      end
  end
with parse_elements (fuel : nat) (acc : list value) (s : string)
  : option (value * string) :=
  match fuel with
  | O => None
  | S fuel' =>
      match parse_value fuel' s with
      | Some (v, s1) =>
          match skip_ws s1 with
          | String d s2 =>
              if Ascii.eqb d ","%char
              then parse_elements fuel' (acc ++ [v]) s2
              else if Ascii.eqb d "]"%char
              then Some (VList (acc ++ [v]), s2)
              else None
          | EmptyString => None
          end
      | None => None
      end
  end.

(** A whole text: one value and nothing but white space after it. *)
Definition parse_json (s : string) : option value :=
  match parse_value (2 * String.length s + 2) s with
  | Some (v, rest) =>
      match skip_ws rest with
      | EmptyString => Some v
      | String _ _ => None
      end
  | None => None
  end.

(** How the decoder names the kind of a JSON value in its errors. *)
Definition json_kind (v : value) : string :=
  match v with
  | VNil => "null"
  | VBool _ => "bool"
  | VNum _ => "number"
  | VStr _ => "string"
  | VList _ => "array"
  | VMap _ | VStrMap _ => "object"
  end.

(** A syntax error leaves the target as it was; an object is added to the
    table of the target; null sets the target to nil; any other value is a
    type error and leaves the target as it was. *)
Definition Unmarshal_map (data : string) (m : option (gmap string value))
  : option (gmap string value) * option error :=
  match parse_json data with
  | None => (m, Some "invalid character in JSON text")
  | Some (VMap (Some tbl)) => (Some (tbl ∪ default ∅ m), None)
  | Some VNil => (None, None)
  | Some v =>
      (m, Some ("json: cannot unmarshal " +:+ json_kind v +:+
                " into Go value of type map[string]interface {}"))
  end.

Definition Unmarshal_list (data : string) (l : option (list value))
  : option (list value) * option error :=
  match parse_json data with
  | None => (l, Some "invalid character in JSON text")
  | Some (VList xs) => (Some xs, None)
  | Some VNil => (None, None)
  | Some v =>
      (l, Some ("json: cannot unmarshal " +:+ json_kind v +:+
                " into Go value of type []interface {}"))
  end.

(** *** Printing *)

Fixpoint insert_sorted {A} (kv : string * A) (l : list (string * A))
  : list (string * A) :=
  match l with
  | [] => [kv]
  | kv' :: l' =>
      if String.leb (fst kv) (fst kv') then kv :: l
      else kv' :: insert_sorted kv l'
  end.

(** The entries of a table by increasing key, the order in which both
    [json.Marshal] and [%v] print a map. *)
Definition sorted_entries {A} (m : gmap string A) : list (string * A) :=
  foldr insert_sorted [] (map_to_list m).

Fixpoint join (sep : string) (l : list string) : string :=
  match l with
  | [] => EmptyString
  | [x] => x
  | x :: l' => x +:+ sep +:+ join sep l'
  end.

(** [json.Marshal] of a string: printable ASCII, with the quote, the
    backslash and the three characters of HTML escaped. *)
Fixpoint escape (s : string) : option string :=
  match s with
  | EmptyString => Some EmptyString
  | String c s' =>
      let n := nat_of_ascii c in
      let piece :=
        if Ascii.eqb c dq then Some (String backslash (String dq EmptyString))
        else if Ascii.eqb c backslash
        then Some (String backslash (String backslash EmptyString))
        else if Ascii.eqb c "<"%char then Some (String backslash "u003c")
        else if Ascii.eqb c ">"%char then Some (String backslash "u003e")
        else if Ascii.eqb c "&"%char then Some (String backslash "u0026")
        else if Nat.eqb n 10 then Some (String backslash "n")
        else if Nat.eqb n 13 then Some (String backslash "r")
        else if Nat.eqb n 9 then Some (String backslash "t")
        else if Nat.ltb n 32 || Nat.leb 127 n then None
        else Some (String c EmptyString) in
      match piece, escape s' with
      | Some x, Some rest => Some (x +:+ rest)
      | _, _ => None
      end
  end.

Definition marshal_string (s : string) : option string :=
  quote <$> escape s.

Definition all_some {A} (l : list (option A)) : option (list A) :=
  foldr (fun o acc => match o, acc with
                      | Some x, Some xs => Some (x :: xs)
                      | _, _ => None
                      end) (Some []) l.

Definition marshal_entry (kv : string * option string) : option string :=
  match marshal_string (fst kv), snd kv with
  | Some k, Some v => Some (k +:+ ":" +:+ v)
  | _, _ => None
  end.

(** [None] stands for a value outside the fragment. *)
Fixpoint marshal (v : value) : option string :=
  match v with
  | VNil => Some "null"
  | VBool b => Some (if b then "true" else "false")
  | VNum f =>
      match Z_of_float f with
      | Some z =>
          if (Z.abs z <? 10 ^ 21)%Z then Some (pretty z) else None
      | None => None
      end
  | VStr s => marshal_string s
  | VList l =>
      (fun xs => "[" +:+ join "," xs +:+ "]") <$> all_some (map marshal l)
  | VMap None => Some "null"
  | VMap (Some m) =>
      (fun xs => "{" +:+ join "," xs +:+ "}") <$>
        all_some (map marshal_entry (sorted_entries (marshal <$> m)))
  | VStrMap None => Some "null"
  | VStrMap (Some m) =>
      (fun xs => "{" +:+ join "," xs +:+ "}") <$>
        all_some (map marshal_entry (sorted_entries (marshal_string <$> m)))
  end.

Definition Marshal (v : value) : string + error :=
  match marshal v with
  | Some text => inl text
  | None => inr "json: unsupported value"
  end.

Definition Sprint_entry (kv : string * string) : string :=
  fst kv +:+ ":" +:+ snd kv.

(** [fmt.Sprintf("%v", v)] *)
Fixpoint Sprint (v : value) : string :=
  match v with
  | VNil => "<nil>"
  | VBool b => if b then "true" else "false"
  | VNum f =>
      match Z_of_float f with
      | Some z =>
          if (Z.abs z <? 10 ^ 6)%Z then pretty z else "%!v(unsupported)"
      | None => "%!v(unsupported)"
      end
  | VStr s => s
  | VList l => "[" +:+ join " " (map Sprint l) +:+ "]"
  | VMap None => "map[]"
  | VMap (Some m) =>
      "map[" +:+ join " " (map Sprint_entry (sorted_entries (Sprint <$> m)))
      +:+ "]"
  | VStrMap None => "map[]"
  | VStrMap (Some m) =>
      "map[" +:+ join " " (map Sprint_entry (sorted_entries m)) +:+ "]"
  end.

(** *** Templates *)

Inductive node : Type :=
| TText (s : string)
| TCall (fn : string) (args : list string).

Definition is_letter (c : ascii) : bool :=
  let n := nat_of_ascii c in
  (Nat.leb 65 n && Nat.leb n 90) || (Nat.leb 97 n && Nat.leb n 122).

Fixpoint read_ident (s : string) : string * string :=
  match s with
  | String c s' =>
      if is_letter c
      then let '(id, rest) := read_ident s' in (String c id, rest)
      else (EmptyString, s)
  | EmptyString => (EmptyString, s)
  end.

(** The quoted arguments of an action, up to its closing braces. *)
Fixpoint read_args (fuel : nat) (s : string) : option (list string * string) :=
  match fuel with
  | O => None
  | S fuel' =>
      match skip_ws s with
      | String c s' =>
          if Ascii.eqb c dq then
            match read_string s' with
            | Some (a, rest) =>
                match read_args fuel' rest with
                | Some (args, rest') => Some (a :: args, rest')
                | None => None
                end
            | None => None
            end
          else
            match strip_prefix "}}" (String c s') with
            | Some rest => Some ([], rest)
            | None => None
            end
      | EmptyString => None
      end
  end.

(** An action, after its opening braces. *)
Definition read_action (s : string) : option (node * string) :=
  let '(fn, rest) := read_ident (skip_ws s) in
  if String.eqb fn "field" || String.eqb fn "json" then
    match read_args (S (String.length rest)) rest with
    | Some (args, rest') => Some (TCall fn args, rest')
    | None => None
    end
  else None.

Fixpoint parse_nodes (fuel : nat) (s : string) : option (list node) :=
  match fuel with
  | O => None
  | S fuel' =>
      match s with
      | EmptyString => Some []
      | String c s' =>
          match strip_prefix "{{" s with
          | Some after =>
              match read_action after with
              | Some (nd, rest) =>
                  match parse_nodes fuel' rest with
                  | Some ns => Some (nd :: ns)
                  | None => None
                  end
              | None => None
              end
          | None =>
              match parse_nodes fuel' s' with
              | Some (TText txt :: ns) => Some (TText (String c txt) :: ns)
              | Some ns => Some (TText (String c EmptyString) :: ns)
              | None => None
              end
          end
      end
  end.

Definition Parse (s : string) : list node + error :=
  match parse_nodes (S (String.length s)) s with
  | Some ns => inl ns
  | None => inr "template: tmpl: bad action"
  end.

Fixpoint Execute (ns : list node) (fm : FuncMap) (data : Values)
  : string + error :=
  match ns with
  | [] => inl EmptyString
  | TText txt :: ns' =>
      match Execute ns' fm data with
      | inl out => inl (txt +:+ out)
      | inr e => inr e
      end
  | TCall fn args :: ns' =>
      match (if String.eqb fn "field" then fm_field fm else fm_json fm) args
      with
      | inr e => inr ("template: tmpl: error calling " +:+ fn +:+ ": " +:+ e)
      | inl v =>
          match Execute ns' fm data with
          | inl out => inl (Sprint v +:+ out)
          | inr e => inr e
          end
      end
  end.

(** *** Requests *)

Record req := {
  req_method : string;
  req_url : string;
  req_body : string;
  req_header : list (string * string)
}.

Definition is_token_char (c : ascii) : bool :=
  is_letter c || is_digit c ||
  existsb (Ascii.eqb c)
    ["!"; "#"; "$"; "%"; "&"; "'"; "*"; "+"; "-"; "."; "^"; "_"; "`"; "|";
     "~"]%char.

Fixpoint forallb_string (p : ascii -> bool) (s : string) : bool :=
  match s with
  | EmptyString => true
  | String c s' => p c && forallb_string p s'
  end.

(** An empty method means GET; the method must be a token and the URL
    free of control characters. *)
Definition NewRequest (method url body : string) : req + error :=
  let method' := if String.eqb method EmptyString then "GET" else method in
  if negb (forallb_string is_token_char method')
  then inr ("net/http: invalid method " +:+ quote method')
  else if negb (forallb_string (fun c => negb (is_control c)) url)
  then inr "net/url: invalid control character in URL"
  else inl {| req_method := method'; req_url := url; req_body := body;
              req_header := [] |}.

(** The header key is kept as it is given. *)
Definition set_header (rq : req) (k v : string) : req :=
  {| req_method := req_method rq; req_url := req_url rq;
     req_body := req_body rq;
     req_header :=
       (k, v) :: filter (fun kv => fst kv ≠ k) (req_header rq) |}.

Definition runtime : GoRuntime := {|
  json_Marshal := Marshal;
  json_Unmarshal_map := Unmarshal_map;
  json_Unmarshal_list := Unmarshal_list;
  fmt_Sprint := Sprint;
  template := list node;
  template_Parse := Parse;
  template_Execute := Execute;
  request := req;
  http_NewRequest := NewRequest;
  Header_Set := set_header
|}.

End Ref.

(** * Notions used in the statements *)

(** The [ok] of the comma-ok lookups in [fieldTmpl]. *)
Definition has_key (n : value) (k : string) : bool :=
  match n with
  | VMap m => bool_decide (is_Some (map_index m k))
  | VStrMap m => bool_decide (is_Some (map_index m k))
  | _ => false
  end.

(** The type assertion [v.(map[string]interface{})] of
    [ExpectJSONBranch]. *)
Definition is_object (v : value) : bool :=
  match v with
  | VMap _ => true
  | _ => false
  end.

(** Following [path] from [m] through objects only: the object reached. *)
Fixpoint descend (m : option (gmap string value)) (path : list string)
  : option (option (gmap string value)) :=
  match path with
  | [] => Some m
  | n :: path' =>
      match map_index m n with
      | Some (VMap child) => descend child path'
      | _ => None
      end
  end.

(** Every segment of [nodes] resolves: each one but the last to an object
    in which the next is looked up, the last one to any value. *)
Fixpoint resolves (m : option (gmap string value)) (nodes : list string)
  : Prop :=
  match nodes with
  | [] => True
  | n :: rest =>
      match rest with
      | [] => is_Some (map_index m n)
      | _ :: _ =>
          exists child, map_index m n = Some (VMap child) /\
                        resolves child rest
      end
  end.

(** The decoded forms of the JSON texts of the examples: a.b.c = 5,
    a.b = "x" and x = 1. *)
Definition tree_abc : gmap string value :=
  {["a" := VMap (Some {["b" := VMap (Some {["c" := VNum 5]})]})]}.

Definition tree_abx : gmap string value :=
  {["a" := VMap (Some {["b" := VStr "x"]})]}.

Definition tree_x1 : gmap string value := {["x" := VNum 1]}.

Definition text_abc : string :=
  "{" +:+ Ref.quote "a" +:+ ":{" +:+ Ref.quote "b" +:+ ":{" +:+
  Ref.quote "c" +:+ ":5}}}".

Definition text_abx : string :=
  "{" +:+ Ref.quote "a" +:+ ":{" +:+ Ref.quote "b" +:+ ":" +:+
  Ref.quote "x" +:+ "}}".

Definition text_x1 : string := "{" +:+ Ref.quote "x" +:+ ":1}".

Definition response_200 : response :=
  {| StatusCode := 200; resp_Body := None |}.

(** ** Reading the log of a run *)

(** The events that set a request up can only be these failures. *)
Definition is_setup (e : event) : Prop :=
  match e with
  | Failed RenderFailure _ | Failed BodyFailure _ | Failed RequestFailure _ =>
      True
  | _ => False
  end.

Definition is_render (e : event) : Prop :=
  match e with
  | Failed RenderFailure _ => True
  | _ => False
  end.

Definition is_read_failure (e : event) : Prop :=
  match e with
  | Failed ReadFailure _ => True
  | _ => False
  end.

(** The events of the checker loop. *)
Definition is_check (e : event) : Prop :=
  match e with
  | Checked _ _ _ | Failed CheckFailure _ => True
  | _ => False
  end.

Definition is_stored (e : event) : Prop :=
  match e with
  | Stored _ _ => True
  | _ => False
  end.

Definition is_checked (e : event) : Prop :=
  match e with
  | Checked _ _ _ => True
  | _ => False
  end.

(** The values written to the store under [name], in order. *)
Definition writes (name : string) (evs : list event) : list value :=
  omap (fun e => match e with
                 | Stored n v => if decide (n = name) then Some v else None
                 | _ => None
                 end) evs.

(** The names of the calls whose iteration began, in order. *)
Definition started_names (evs : list event) : list string :=
  omap (fun e => match e with Started n => Some n | _ => None end) evs.

Section RunNotions.
Context {rt : GoRuntime} {decl : BodyDecl}.
Context {Handler RespObject : Type}.
Context (ServeHTTP : Handler -> request -> Handler * response).
Context (json_Unmarshal_into :
           string -> RespObject -> RespObject * option error).

Abbreviation St := (Tester Handler RespObject).

(** What was logged between two states of a run. *)
Definition log_since (st st' : St) : list event :=
  drop (length (t st)) (t st').

(** The events of the iteration of [Run] for [c], begun in state [st]. *)
Definition call_events (c : Call RespObject) (st : St) : list event :=
  log_since st (snd (run_call ServeHTTP json_Unmarshal_into c st)).

(** The state of the tester when its first [i] calls have been run. *)
Definition state_after (i : nat) (tst : St) : St :=
  snd (run_calls ServeHTTP json_Unmarshal_into (take i (Calls tst)) tst).

(** The call [c], run from [st], produced a response body and its typed
    decode, if it has a target, did not fail. *)
Definition captured (c : Call RespObject) (st : St) : Prop :=
  (exists rb, BodyRead (Call.Name c) rb ∈ call_events c st) /\
  (forall msg, Failed DecodeFailure msg ∉ call_events c st).

(** The events of each iteration of a run over [cs], begun in [st]. *)
Fixpoint run_log (cs : list (Call RespObject)) (st : St)
  : list (list event) :=
  match cs with
  | [] => []
  | c :: cs' =>
      call_events c st ::
      run_log cs' (snd (run_call ServeHTTP json_Unmarshal_into c st))
  end.

(** [json.Unmarshal(rb, c.respObject)] returned no error, or there is no
    target. *)
Definition typed_decode_ok (c : Call RespObject) (rb : string) : Prop :=
  match Call.respObject c with
  | Some target => snd (json_Unmarshal_into rb target) = None
  | None => True
  end.

(** A step that only logs events satisfying [P]. *)
Definition extends (P : event -> Prop) (st st' : St) : Prop :=
  exists evs, t st' = t st ++ evs /\ Forall P evs /\
              values st' = values st /\ Calls st' = Calls st.

(** The shapes of what an iteration logs once the handler has answered,
    with the value written to the store, if any. *)
Inductive resp_log (c : Call RespObject)
  : list event -> option value -> Prop :=
| resp_no_body checks :
    Forall is_check checks ->
    resp_log c checks None
| resp_decode_failed rb errs target e :
    Forall is_read_failure errs ->
    Call.respObject c = Some target ->
    snd (json_Unmarshal_into rb target) = Some e ->
    resp_log c
      (BodyRead (Call.Name c) rb :: errs ++ [Failed DecodeFailure e]) None
| resp_stored rb errs checks :
    Forall is_read_failure errs ->
    Forall is_check checks ->
    typed_decode_ok c rb ->
    resp_log c
      (BodyRead (Call.Name c) rb :: errs ++
       Stored (Call.Name c) (VMap (fst (json_Unmarshal_map rb None))) ::
       checks)
      (Some (VMap (fst (json_Unmarshal_map rb None)))).

(** The shapes of what a whole iteration logs. *)
Inductive call_log (c : Call RespObject)
  : list event -> option value -> Prop :=
| call_skipped pre :
    Forall is_setup pre ->
    call_log c (Started (Call.Name c) :: pre) None
| call_served pre url tail o :
    Forall is_setup pre ->
    resp_log c tail o ->
    call_log c (Started (Call.Name c) :: pre ++
                Served (Call.Name c) url :: tail) o.

(** The store after an iteration that wrote [o]. *)
Definition store_with (name : string) (o : option value) (v : Values)
  : Values :=
  match o with
  | Some x => <[name := x]> v
  | None => v
  end.

End RunNotions.

(** ** Example scenarios *)

(** The decode target of the examples is a [*[]interface{}]. *)
Abbreviation Target := (option (list value)).

Definition example_decl : BodyDecl :=
  {| StringBody_ContentType := "text/plain" |}.

Definition text_id7 : string := "{" +:+ Ref.quote "id" +:+ ":7}".

Definition tree_id7 : gmap string value := {["id" := VNum 7]}.

(** A handler that answers every request with status 200 and the body
    [body]. *)
Definition fixed_handler (body : string)
  : unit -> Ref.req -> unit * response :=
  fun h _ => (h, {| StatusCode := 200; resp_Body := Some (body, None) |}).

Definition call_create : Call Target :=
  Call.mk "create" "POST" "/items" NoopBody [] None [ExpectStatus 200].

(** As [call_create], with a decode target. *)
Definition call_create_typed : Call Target :=
  Call.mk "create" "POST" "/items" NoopBody [] (Some (Some []))
    [ExpectStatus 200].

Definition call_fetch : Call Target :=
  Call.mk "fetch" "GET"
    ("/items/{{field " +:+ Ref.quote "create" +:+ " " +:+ Ref.quote "id" +:+
     "}}")
    NoopBody [] None [ExpectStatus 200].

(** A call whose query string is not a template: the action is not
    closed. *)
Definition call_fetch_bad : Call Target :=
  Call.mk "fetch" "GET" "/items/{{" NoopBody [] None [ExpectStatus 200].

Definition call_list : Call Target :=
  Call.mk "list" "GET" "/items" NoopBody [] None [].

(** A call that expects a status the handler of the examples never
    gives. *)
Definition call_strict : Call Target :=
  Call.mk "create" "POST" "/items" NoopBody [] None
    [ExpectStatus 201; ExpectStatus 200].

Definition example_run (body : string) (calls : list (Call Target))
  : Tester unit Target :=
  @Run Ref.runtime example_decl unit Target (fixed_handler body)
    Ref.Unmarshal_list (NewTester [] tt calls).

(** ** Further readings of the log *)

(** The handler calls: the name of the call and the URL of the request. *)
Definition serves (evs : list event) : list (string * string) :=
  omap (fun e => match e with Served n u => Some (n, u) | _ => None end) evs.

(** The numbers of the checkers that were called, in order. *)
Definition checked_indices (evs : list event) : list nat :=
  omap (fun e => match e with Checked _ i _ => Some i | _ => None end) evs.

(** What these checkers returned. *)
Definition checked_results (evs : list event) : list (option error) :=
  omap (fun e => match e with Checked _ _ res => Some res | _ => None end)
    evs.

(** The messages of the checker failures that were reported. *)
Definition check_reports (evs : list event) : list string :=
  omap (fun e => match e with
                 | Failed CheckFailure msg => Some msg
                 | _ => None
                 end) evs.

(** The message [Run] reports for what a checker returned. *)
Definition check_report (name : string) (res : option error)
  : option string :=
  match res with
  | Some e => Some (name +:+ ": " +:+ e)
  | None => None
  end.

(** [checks] is the log of the checker loop over [cs], begun at number
    [n]: every checker is called once, in order, with the same arguments,
    and each error is reported once, under the name of the call. *)
Definition checks_of {RespObject : Type} (name : string) (resp : response)
    (respBody : string) (o : option RespObject) (n : nat)
    (cs : list (Checker RespObject)) (checks : list event) : Prop :=
  Forall is_check checks /\
  checked_indices checks = seq n (length cs) /\
  checked_results checks = (fun ck => ck resp respBody o) <$> cs /\
  check_reports checks = omap (check_report name) (checked_results checks).

(** The tester [st] with [cs] as its list of calls. *)
Definition with_calls {Handler RespObject : Type}
    (cs : list (Call RespObject)) (st : Tester Handler RespObject)
  : Tester Handler RespObject :=
  {| t := t st; r := r st; Calls := cs; values := values st |}.

(** A step does not look at the list of calls: it does the same on a
    tester whose list was replaced, and leaves the replacement in place. *)
Definition calls_blind {Handler RespObject A : Type}
    (f : M (Tester Handler RespObject) A) : Prop :=
  forall (cs : list (Call RespObject)) (st : Tester Handler RespObject),
    f (with_calls cs st) = (fst (f st), with_calls cs (snd (f st))).

(** * Properties *)

(** ** The template functions *)

Lemma field_loop_app (i : value) (pre post : list string) :
  field_loop i (pre ++ post) =
  match field_loop i pre with
  | inl n => field_loop n post
  | inr err => inr err
  end.
Proof.
  revert i. induction pre as [|k pre IH]; intros i; simpl; [done|].
  destruct (field_step i k) as [i'|err]; [apply IH|done].
Qed.

Lemma field_step_not_map_like (n : value) (k : string) :
  map_like n = false ->
  field_step n k = inr ("cannot dereference " +:+ type_name n).
Proof. by destruct n. Qed.

Lemma field_step_map_like (n : value) (k : string) :
  map_like n = true -> exists n', field_step n k = inl n'.
Proof.
  destruct n as [| | | | |m|m]; try done; intros _; simpl;
    destruct (map_index m k); eauto.
Qed.

Lemma field_step_missing (n : value) (k : string) :
  map_like n = true -> has_key n k = false ->
  field_step n k = inl (VStr no_value).
Proof.
  destruct n as [| | | | |m|m]; try done; intros _; simpl;
    destruct (map_index m k) eqn:E; try done;
    intros Hk; apply bool_decide_eq_false in Hk; destruct Hk; eauto.
Qed.

Lemma field_loop_error (i : value) (key : list string) (e : error) :
  field_loop i key = inr e <->
  exists pre k post n,
    key = pre ++ k :: post /\ field_loop i pre = inl n /\
    map_like n = false /\ e = "cannot dereference " +:+ type_name n.
Proof.
  split.
  - revert i. induction key as [|k key IH]; intros i; simpl; [done|].
    destruct (field_step i k) as [i'|err] eqn:Hstep.
    + intros (pre & k' & post & n & -> & Hpre & Hn & ->)%IH.
      exists (k :: pre), k', post, n. simpl. rewrite Hstep. done.
    + intros [= ->]. exists [], k, key, i. simpl.
      destruct (map_like i) eqn:Hi.
      * destruct (field_step_map_like i k Hi) as [n' Hn']. congruence.
      * rewrite (field_step_not_map_like i k Hi) in Hstep. naive_solver.
  - intros (pre & k & post & n & -> & Hpre & Hn & ->).
    rewrite field_loop_app, Hpre. simpl.
    by rewrite (field_step_not_map_like n k Hn).
Qed.

(** C3 (as the code has it): when the last key of the path is absent on a
    map-like node, [field] returns the literal string [<no value>] and no
    error; when an earlier key is absent, that placeholder string becomes
    the current node and the next key fails on it with "cannot dereference
    string".  In general [field] returns an error exactly when some key of
    the path is applied to a node that is not map-like. *)
Theorem fieldTmpl_missing_key
    (v : Values) (pre : list string) (k : string) (post : list string)
    (n : value) :
  field_loop (VMap (Some v)) pre = inl n ->
  map_like n = true ->
  has_key n k = false ->
  fieldTmpl v (pre ++ k :: post) =
    match post with
    | [] => inl (VStr no_value)
    | _ :: _ => inr "cannot dereference string"
    end
  /\ (forall key e,
        fieldTmpl v key = inr e <->
        exists pre' k' post' n',
          key = pre' ++ k' :: post' /\
          field_loop (VMap (Some v)) pre' = inl n' /\
          map_like n' = false /\
          e = "cannot dereference " +:+ type_name n').
Proof.
  intros Hpre Hn Hk. split.
  - unfold fieldTmpl. rewrite field_loop_app, Hpre. simpl.
    rewrite (field_step_missing n k Hn Hk). by destruct post.
  - intros key e. apply field_loop_error.
Qed.

(** The claim C3 fails on the empty store with the path ("a","b"): the key
    "a" is absent on the root, which is map-like, and the result is an
    error, not the placeholder. *)
Lemma fieldTmpl_missing_intermediate_key_errs :
  map_like (VMap (Some (∅ : Values))) = true /\
  has_key (VMap (Some (∅ : Values))) "a" = false /\
  fieldTmpl ∅ ["a"; "b"] = inr "cannot dereference string" /\
  fieldTmpl ∅ ["a"; "b"] <> inl (VStr no_value).
Proof. repeat split; done. Qed.

Lemma fieldTmpl_missing_key_witness :
  fieldTmpl (<["a" := VMap (Some ∅)]> ∅) (["a"] ++ "b" :: []) =
    inl (VStr no_value)
  /\ fieldTmpl (<["a" := VMap (Some ∅)]> ∅) (["a"] ++ "b" :: ["c"]) =
    inr "cannot dereference string".
Proof.
  split.
  - refine (proj1 (fieldTmpl_missing_key (<["a" := VMap (Some ∅)]> ∅)
                     ["a"] "b" [] (VMap (Some ∅)) _ _ _)); reflexivity.
  - refine (proj1 (fieldTmpl_missing_key (<["a" := VMap (Some ∅)]> ∅)
                     ["a"] "b" ["c"] (VMap (Some ∅)) _ _ _)); reflexivity.
Defined.

(** C5: [field "a" "b"] yields "x" when "a" maps to the object with "b"
    set to "x", the literal [<no value>] when "a" maps to the empty
    object, and an error when "a" maps to a value that is not a map. *)
Theorem fieldTmpl_a_b
    (v1 v2 v3 : Values) (x : value) (k : string) :
  v1 !! "a" = Some (VMap (Some {["b" := VStr "x"]})) ->
  v2 !! "a" = Some (VMap (Some ∅)) ->
  v3 !! "a" = Some x ->
  map_like x = false ->
  fieldTmpl v1 ["a"; "b"] = inl (VStr "x")
  /\ fieldTmpl v2 ["a"; "b"] = inl (VStr "<no value>")
  /\ fieldTmpl v3 ["a"; k] = inr ("cannot dereference " +:+ type_name x).
Proof.
  intros H1 H2 H3 Hx. unfold fieldTmpl. simpl.
  rewrite H1, H2, H3. simpl. split; [|split].
  - by rewrite lookup_singleton_eq.
  - by rewrite lookup_empty.
  - by rewrite (field_step_not_map_like x k Hx).
Qed.

Lemma fieldTmpl_a_b_witness :
  fieldTmpl (<["a" := VMap (Some {["b" := VStr "x"]})]> ∅) ["a"; "b"] =
    inl (VStr "x")
  /\ fieldTmpl (<["a" := VMap (Some ∅)]> ∅) ["a"; "b"] =
    inl (VStr "<no value>")
  /\ fieldTmpl (<["a" := VNum 3]> ∅) ["a"; "b"] =
    inr ("cannot dereference " +:+ type_name (VNum 3)).
Proof.
  apply (fieldTmpl_a_b
           (<["a" := VMap (Some {["b" := VStr "x"]})]> ∅)
           (<["a" := VMap (Some ∅)]> ∅)
           (<["a" := VNum 3]> ∅) (VNum 3) "b"); reflexivity.
Defined.



(** C8: the body of the call [AddCall] builds is the argument itself when
    it implements [Body], a [StringBody] holding the argument when it is a
    non-empty string, and a [NoopBody] in every other case; the call is
    appended to the list. *)
Theorem AddCall_normalizes_body {Handler RespObject : Type}
    (tst : Tester Handler RespObject) (name method querystr : string)
    (body : any) :
  let c := fst (AddCall tst name method querystr body) in
  (forall b, body = AnyBody b -> Call.Body c = b)
  /\ (forall s, body = AnyString s -> s <> EmptyString ->
                Call.Body c = StringBody s)
  /\ ((forall b, body <> AnyBody b) ->
      (forall s, body = AnyString s -> s = EmptyString) ->
      Call.Body c = NoopBody)
  /\ Call.Name c = name /\ Call.Method c = method
  /\ Call.QueryStr c = querystr
  /\ Calls (snd (AddCall tst name method querystr body)) = Calls tst ++ [c].
Proof.
  simpl. repeat split.
  - by intros b ->.
  - intros s -> Hs. destruct (String.eqb_spec s EmptyString); done.
  - intros Hb Hs. destruct body as [|b|s|x]; try done.
    + by destruct (Hb b).
    + by rewrite (Hs s eq_refl).
Qed.

Lemma AddCall_normalizes_body_witness :
  let tst := NewTester (Handler := unit) (RespObject := unit) [] tt [] in
  Call.Body (fst (AddCall tst "c" "POST" "/x" (AnyBody (StringBody "b")))) =
    StringBody "b"
  /\ Call.Body (fst (AddCall tst "c" "POST" "/x" (AnyString "tpl"))) =
    StringBody "tpl"
  /\ Call.Body (fst (AddCall tst "c" "POST" "/x" (AnyOther (VNum 1)))) =
    NoopBody.
Proof.
  intros tst. split; [|split].
  - refine (proj1 (AddCall_normalizes_body tst "c" "POST" "/x"
                     (AnyBody (StringBody "b"))) _ eq_refl).
  - refine (proj1 (proj2 (AddCall_normalizes_body tst "c" "POST" "/x"
                            (AnyString "tpl"))) _ eq_refl _).
    discriminate.
  - refine (proj1 (proj2 (proj2 (AddCall_normalizes_body tst "c" "POST" "/x"
                                   (AnyOther (VNum 1))))) _ _);
      intros; discriminate.
Defined.

(** ** ExpectJSONBranch *)

Section Branch.
Context {rt : GoRuntime}.

Lemma branch_index_in_range (nodes : list string) (i : nat) :
  Z.of_nat i = (Z.of_nat (length nodes) - 2)%Z -> is_Some (nodes !! S i).
Proof. intros Hi. apply lookup_lt_is_Some. lia. Qed.

Lemma branch_loop_missing (nodes : list string) (i : nat) (n : string)
    (rest : list string) (m : option (gmap string value)) :
  map_index m n = None ->
  branch_loop nodes i (n :: rest) m = Some ("Missing node '" +:+ n +:+ "'").
Proof. intros Hn. simpl. by rewrite Hn. Qed.

Lemma branch_loop_object (nodes : list string) (i : nat) (n : string)
    (rest : list string) (m child : option (gmap string value)) :
  map_index m n = Some (VMap child) ->
  branch_loop nodes i (n :: rest) m = branch_loop nodes (S i) rest child.
Proof. intros Hn. simpl. by rewrite Hn. Qed.

Lemma branch_loop_non_object (nodes : list string) (i : nat) (n : string)
    (rest : list string) (m : option (gmap string value)) (v : value) :
  map_index m n = Some v -> is_object v = false ->
  branch_loop nodes i (n :: rest) m =
    if bool_decide (Z.of_nat i = Z.of_nat (length nodes) - 2)%Z
    then
      match nodes !! S i with
      | Some lastNode =>
          if String.eqb (fmt_Sprint v) lastNode then None
          else Some ("Wrong value: expected '" +:+ lastNode +:+
                     "', got '" +:+ fmt_Sprint v +:+ "'")
      | None => Some "index out of range"
      end
    else branch_loop nodes (S i) rest m.
Proof. intros Hn Hv. simpl. rewrite Hn. by destruct v. Qed.

Lemma branch_loop_descend (nodes : list string) (pre rest : list string) :
  forall (i : nat) (m m' : option (gmap string value)),
    descend m pre = Some m' ->
    branch_loop nodes i (pre ++ rest) m =
    branch_loop nodes (i + length pre) rest m'.
Proof.
  induction pre as [|n pre IH]; intros i m m' Hd; simpl in Hd.
  - injection Hd as <-. simpl. by rewrite Nat.add_0_r.
  - destruct (map_index m n) as [v|] eqn:Hn; [|done].
    destruct v as [| | | | |child|]; try done.
    rewrite <- app_comm_cons, (branch_loop_object _ _ _ _ _ child Hn).
    rewrite (IH (S i) child m' Hd). f_equal. simpl. lia.
Qed.

Lemma branch_loop_resolves (nodes : list string) (rest : list string) :
  forall (i : nat) (m : option (gmap string value)),
    i + length rest = length nodes ->
    resolves m rest ->
    branch_loop nodes i rest m = None.
Proof.
  induction rest as [|n rest IH]; intros i m Hlen Hres; [done|].
  destruct rest as [|n' rest'].
  - destruct Hres as [v Hv]. destruct (is_object v) eqn:Hobj.
    + destruct v; try done. by rewrite (branch_loop_object _ _ _ _ _ _ Hv).
    + rewrite (branch_loop_non_object _ _ _ _ _ _ Hv Hobj).
      rewrite bool_decide_eq_false_2; [done|]. simpl in Hlen. lia.
  - destruct Hres as (child & Hn & Hres).
    rewrite (branch_loop_object _ _ _ _ _ child Hn).
    apply IH; [simpl in *; lia|done].
Qed.

(** C10: when a key at a position before the second-to-last resolves to a
    value that is not an object, the checker neither fails nor stops: the
    loop goes on with the map cursor unchanged, and the next key is looked
    up in that same map. *)
Theorem ExpectJSONBranch_keeps_cursor_on_early_non_object
    (nodes : list string) (i : nat) (n : string) (rest : list string)
    (m : option (gmap string value)) (v : value) :
  map_index m n = Some v ->
  is_object v = false ->
  (Z.of_nat i < Z.of_nat (length nodes) - 2)%Z ->
  branch_loop nodes i (n :: rest) m = branch_loop nodes (S i) rest m
  /\ (forall n' rest',
        rest = n' :: rest' -> map_index m n' = None ->
        branch_loop nodes i (n :: rest) m =
          Some ("Missing node '" +:+ n' +:+ "'"))
  /\ (forall n' rest' child,
        rest = n' :: rest' -> map_index m n' = Some (VMap child) ->
        branch_loop nodes i (n :: rest) m =
          branch_loop nodes (S (S i)) rest' child).
Proof.
  intros Hn Hv Hi.
  assert (Hgo : branch_loop nodes i (n :: rest) m =
                branch_loop nodes (S i) rest m).
  { rewrite (branch_loop_non_object _ _ _ _ _ _ Hn Hv).
    rewrite bool_decide_eq_false_2; [done|lia]. }
  split; [done|split].
  - intros n' rest' -> Hn'. rewrite Hgo. by apply branch_loop_missing.
  - intros n' rest' child -> Hn'. rewrite Hgo. by apply branch_loop_object.
Qed.

(** C4: [ExpectJSONBranch] fails whenever the key at hand is missing in
    the current map; it passes when every segment resolves and the walk
    reaches the end of the path; when the second-to-last segment resolves
    to a value that is not an object, the string form of that value is
    compared with the last segment and the checker fails exactly on
    mismatch.  So ("a","b","c") passes on a.b.c = 5 and ("a","b","y")
    fails on a.b = "x" with the wrong-value message. *)
Theorem ExpectJSONBranch_walk {RespObject : Type}
    (nodes : list string) (r : response) (body : string)
    (o : option RespObject) (m : option (gmap string value)) :
  json_Unmarshal_map body (Some ∅) = (m, None) ->
  (forall pre n rest m',
      nodes = pre ++ n :: rest -> descend m pre = Some m' ->
      map_index m' n = None ->
      ExpectJSONBranch nodes r body o = Some ("Missing node '" +:+ n +:+ "'"))
  /\ (forall i n rest m',
        map_index m' n = None ->
        branch_loop nodes i (n :: rest) m' =
          Some ("Missing node '" +:+ n +:+ "'"))
  /\ (forall i n rest m' v lastNode,
        Z.of_nat i = (Z.of_nat (length nodes) - 2)%Z ->
        nodes !! S i = Some lastNode ->
        map_index m' n = Some v -> is_object v = false ->
        branch_loop nodes i (n :: rest) m' =
          (if String.eqb (fmt_Sprint v) lastNode then None
           else Some ("Wrong value: expected '" +:+ lastNode +:+
                      "', got '" +:+ fmt_Sprint v +:+ "'")))
  /\ (resolves m nodes -> ExpectJSONBranch nodes r body o = None)
  /\ (forall pre n lastNode m' v,
        nodes = pre ++ [n; lastNode] -> descend m pre = Some m' ->
        map_index m' n = Some v -> is_object v = false ->
        ExpectJSONBranch nodes r body o =
          (if String.eqb (fmt_Sprint v) lastNode then None
           else Some ("Wrong value: expected '" +:+ lastNode +:+
                      "', got '" +:+ fmt_Sprint v +:+ "'"))
        /\ (ExpectJSONBranch nodes r body o = None <->
            fmt_Sprint v = lastNode))
  /\ (nodes = ["a"; "b"; "c"] -> m = Some tree_abc ->
      ExpectJSONBranch nodes r body o = None)
  /\ (nodes = ["a"; "b"; "y"] -> m = Some tree_abx ->
      fmt_Sprint (VStr "x") = "x" ->
      ExpectJSONBranch nodes r body o =
        Some "Wrong value: expected 'y', got 'x'").
Proof.
  intros Hdec.
  assert (Hrun : ExpectJSONBranch nodes r body o = branch_loop nodes 0 nodes m)
    by (unfold ExpectJSONBranch; by rewrite Hdec).
  assert (Hcmp : forall pre n lastNode m' v,
            nodes = pre ++ [n; lastNode] -> descend m pre = Some m' ->
            map_index m' n = Some v -> is_object v = false ->
            ExpectJSONBranch nodes r body o =
              (if String.eqb (fmt_Sprint v) lastNode then None
               else Some ("Wrong value: expected '" +:+ lastNode +:+
                          "', got '" +:+ fmt_Sprint v +:+ "'"))).
  { intros pre n lastNode m' v Hnodes Hd Hn Hv. rewrite Hrun.
    rewrite Hnodes at 2. rewrite (branch_loop_descend _ _ _ 0 m m' Hd).
    rewrite (branch_loop_non_object _ _ _ _ _ _ Hn Hv). simpl.
    rewrite bool_decide_eq_true_2
      by (rewrite Hnodes, length_app; simpl; lia).
    replace (nodes !! S (length pre)) with (Some lastNode); [done|].
    rewrite Hnodes, lookup_app_r by lia.
    by replace (S (length pre) - length pre) with 1 by lia. }
  repeat apply conj.
  - intros pre n rest m' Hnodes Hd Hn. rewrite Hrun. rewrite Hnodes at 2.
    rewrite (branch_loop_descend _ _ _ 0 m m' Hd).
    by apply branch_loop_missing.
  - intros i n rest m' Hn. by apply branch_loop_missing.
  - intros i n rest m' v lastNode Hi Hlast Hn Hv.
    rewrite (branch_loop_non_object _ _ _ _ _ _ Hn Hv).
    by rewrite bool_decide_eq_true_2, Hlast.
  - intros Hres. rewrite Hrun. by apply branch_loop_resolves.
  - intros pre n lastNode m' v Hnodes Hd Hn Hv.
    pose proof (Hcmp pre n lastNode m' v Hnodes Hd Hn Hv) as ->.
    split; [done|]. destruct (String.eqb_spec (fmt_Sprint v) lastNode); done.
  - intros -> ->. rewrite Hrun. reflexivity.
  - intros -> -> Hx.
    rewrite (Hcmp ["a"] "b" "y" (Some {["b" := VStr "x"]}) (VStr "x"));
      try reflexivity.
    by rewrite Hx.
Qed.

End Branch.

Lemma ExpectJSONBranch_keeps_cursor_on_early_non_object_witness :
  @branch_loop Ref.runtime ["a"; "b"; "c"] 0 ["a"; "b"; "c"]
    (Some {["a" := VStr "x"; "b" := VNum 2]}) =
  @branch_loop Ref.runtime ["a"; "b"; "c"] 1 ["b"; "c"]
    (Some {["a" := VStr "x"; "b" := VNum 2]}).
Proof.
  refine (proj1 (ExpectJSONBranch_keeps_cursor_on_early_non_object
                   (rt := Ref.runtime) ["a"; "b"; "c"] 0 "a" ["b"; "c"]
                   (Some {["a" := VStr "x"; "b" := VNum 2]}) (VStr "x")
                   _ _ _)); [reflexivity|reflexivity|simpl; lia].
Defined.

Lemma ExpectJSONBranch_walk_witness :
  @ExpectJSONBranch Ref.runtime unit ["a"; "b"; "c"] response_200 text_abc
    None = None
  /\ @ExpectJSONBranch Ref.runtime unit ["a"; "b"; "y"] response_200 text_abx
       None = Some "Wrong value: expected 'y', got 'x'".
Proof.
  split.
  - refine (proj1 (proj2 (proj2 (proj2 (proj2 (proj2
              (ExpectJSONBranch_walk (rt := Ref.runtime) (RespObject := unit)
                 ["a"; "b"; "c"] response_200 text_abc None (Some tree_abc)
                 _)))))) eq_refl eq_refl).
    vm_compute. reflexivity.
  - refine (proj2 (proj2 (proj2 (proj2 (proj2 (proj2
              (ExpectJSONBranch_walk (rt := Ref.runtime) (RespObject := unit)
                 ["a"; "b"; "y"] response_200 text_abx None (Some tree_abx)
                 _)))))) eq_refl eq_refl eq_refl).
    vm_compute. reflexivity.
Defined.

(** ** The runner *)

Section RunnerFacts.
Context {rt : GoRuntime} {decl : BodyDecl}.
Context {Handler RespObject : Type}.
Context (ServeHTTP : Handler -> request -> Handler * response).
Context (json_Unmarshal_into :
           string -> RespObject -> RespObject * option error).

Abbreviation St := (Tester Handler RespObject).
Abbreviation run_call' := (run_call ServeHTTP json_Unmarshal_into).
Abbreviation run_calls' := (run_calls ServeHTTP json_Unmarshal_into).
Abbreviation Run' := (Run ServeHTTP json_Unmarshal_into).
Abbreviation call_events' := (call_events ServeHTTP json_Unmarshal_into).
Abbreviation state_after' := (state_after ServeHTTP json_Unmarshal_into).
Abbreviation captured' := (captured ServeHTTP json_Unmarshal_into).
Abbreviation run_log' := (run_log ServeHTTP json_Unmarshal_into).

Lemma bind_eq {S A B} (m : M S A) (k : A -> M S B) (st : S) :
  bind m k st = k (fst (m st)) (snd (m st)).
Proof. unfold bind. by destruct (m st). Qed.

Lemma extends_refl (P : event -> Prop) (st : St) : extends P st st.
Proof. exists []. by rewrite app_nil_r. Qed.

Lemma extends_trans (P : event -> Prop) (st1 st2 st3 : St) :
  extends P st1 st2 -> extends P st2 st3 -> extends P st1 st3.
Proof.
  intros (e1 & Ht1 & HP1 & Hv1 & Hc1) (e2 & Ht2 & HP2 & Hv2 & Hc2).
  exists (e1 ++ e2). rewrite Ht2, Ht1, <- app_assoc.
  repeat split; [by apply Forall_app|congruence|congruence].
Qed.

Lemma extends_weaken (P Q : event -> Prop) (st st' : St) :
  (forall e, P e -> Q e) -> extends P st st' -> extends Q st st'.
Proof.
  intros HPQ (evs & ? & HP & ? & ?). exists evs.
  repeat split; try done. by eapply Forall_impl.
Qed.

Lemma emit_extends (P : event -> Prop) (e : event) (st : St) :
  P e -> extends P st (snd (emit e st)).
Proof. intros He. exists [e]. simpl. repeat split; auto. Qed.

Lemma applyTemplate_extends (s : string) (st : St) :
  extends is_render st (snd (applyTemplate s st)).
Proof.
  unfold applyTemplate. destruct (Apply (values st) s) as [b|err].
  - apply extends_refl.
  - rewrite bind_eq. simpl. by apply (emit_extends is_render).
Qed.

Lemma run_body_extends (p : body_prog) (st : St) :
  extends is_render st (snd (run_body p st)).
Proof.
  revert st. induction p as [res|s k IH]; intros st; simpl.
  - apply extends_refl.
  - rewrite bind_eq. eapply extends_trans; [apply applyTemplate_extends|].
    apply IH.
Qed.

Lemma set_headers_extends (hs : list (string * string)) (req : request)
    (st : St) :
  extends is_render st (snd (set_headers hs req st)).
Proof.
  revert req st. induction hs as [|[k v] hs IH]; intros req st; simpl.
  - apply extends_refl.
  - rewrite !bind_eq.
    eapply extends_trans; [apply applyTemplate_extends|].
    eapply extends_trans; [apply applyTemplate_extends|]. apply IH.
Qed.

Lemma run_checkers_extends (name : string) (resp : response)
    (respBody : string) (o : option RespObject) (cs : list (Checker RespObject))
    (n : nat) (st : St) :
  extends is_check st (snd (run_checkers name resp respBody o n cs st)).
Proof.
  revert n st. induction cs as [|checker cs IH]; intros n st; simpl.
  - apply extends_refl.
  - rewrite !bind_eq.
    set (err := checker resp respBody o).
    apply (extends_trans _ _ (snd (emit (Checked name n err) st)));
      [by apply emit_extends|].
    eapply extends_trans; [|apply IH].
    destruct err; [by apply emit_extends|apply extends_refl].
Qed.

Lemma render_is_setup (e : event) : is_render e -> is_setup e.
Proof. by destruct e as [|[]| | | |]. Qed.

Lemma log_since_app (st st' : St) (evs : list event) :
  t st' = t st ++ evs -> log_since st st' = evs.
Proof. intros Ht. unfold log_since. by rewrite Ht, drop_app_length. Qed.

Lemma store_and_check_log (c : Call RespObject) (resp : response)
    (rb : string) (o : option RespObject) (st : St) :
  let st' := snd (store_and_check c resp rb o st) in
  let v := VMap (fst (json_Unmarshal_map rb None)) in
  exists checks,
    Forall is_check checks /\
    t st' = t st ++ Stored (Call.Name c) v :: checks /\
    values st' = <[Call.Name c := v]> (values st) /\
    Calls st' = Calls st.
Proof.
  simpl. unfold store_and_check. rewrite bind_eq.
  destruct (run_checkers_extends (Call.Name c) resp rb o (Call.checkers c) 0
              (snd (set_value (Call.Name c)
                      (VMap (fst (json_Unmarshal_map rb None))) st)))
    as (checks & Ht & HP & Hv & Hc).
  exists checks. rewrite Ht, Hv, Hc. simpl.
  by rewrite <- app_assoc.
Qed.

Lemma handle_response_log (c : Call RespObject) (resp : response) (st : St) :
  let st' := snd (handle_response json_Unmarshal_into c resp st) in
  exists evs o,
    resp_log json_Unmarshal_into c evs o /\
    t st' = t st ++ evs /\
    values st' = store_with (Call.Name c) o (values st) /\
    Calls st' = Calls st.
Proof.
  simpl. unfold handle_response.
  destruct (resp_Body resp) as [[rb rerr]|].
  - rewrite !bind_eq.
    set (st1 := snd (emit (BodyRead (Call.Name c) rb) st)).
    set (st2 := snd (match rerr with
                     | Some e => report ReadFailure e
                     | None => ret tt
                     end st1)).
    assert (Hread : exists errs,
               Forall is_read_failure errs /\
               t st2 = t st ++ BodyRead (Call.Name c) rb :: errs /\
               values st2 = values st /\ Calls st2 = Calls st).
    { subst st2 st1. destruct rerr as [e|]; simpl.
      - exists [Failed ReadFailure e]. rewrite <- app_assoc.
        repeat split; auto. by repeat constructor.
      - exists []. repeat split; auto. }
    destruct Hread as (errs & Herrs & Ht2 & Hv2 & Hc2). clearbody st2.
    assert (Hstore : forall o,
               typed_decode_ok json_Unmarshal_into c rb ->
               let st' := snd (store_and_check c resp rb o st2) in
               exists evs o',
                 resp_log json_Unmarshal_into c evs o' /\
                 t st' = t st ++ evs /\
                 values st' = store_with (Call.Name c) o' (values st) /\
                 Calls st' = Calls st).
    { intros o Hok. simpl.
      destruct (store_and_check_log c resp rb o st2)
        as (checks & Hchecks & Ht & Hv & Hc).
      eexists _, _. split; [by apply (resp_stored _ _ rb errs checks)|].
      rewrite Ht, Hv, Hc, Ht2, Hv2, Hc2. simpl.
      by rewrite <- app_assoc. }
    destruct (Call.respObject c) as [target|] eqn:Htarget.
    + destruct (json_Unmarshal_into rb target) as [target' err] eqn:Hdec.
      destruct err as [e|].
      * eexists _, None. split.
        { apply (resp_decode_failed _ _ rb errs target e); try done.
          by rewrite Hdec. }
        simpl. rewrite Ht2, Hv2, Hc2. by rewrite <- app_assoc.
      * apply Hstore. unfold typed_decode_ok. by rewrite Htarget, Hdec.
    + apply Hstore. unfold typed_decode_ok. by rewrite Htarget.
  - destruct (run_checkers_extends (Call.Name c) resp EmptyString
                (Call.respObject c) (Call.checkers c) 0 st)
      as (checks & Ht & HP & Hv & Hc).
    exists checks, None. split; [by constructor|]. by rewrite Ht, Hv, Hc.
Qed.

Lemma run_call_log (c : Call RespObject) (st : St) :
  let st' := snd (run_call' c st) in
  exists evs o,
    call_log json_Unmarshal_into c evs o /\
    t st' = t st ++ evs /\
    values st' = store_with (Call.Name c) o (values st) /\
    Calls st' = Calls st.
Proof.
  simpl. unfold run_call. rewrite !bind_eq.
  set (st0 := snd (emit (Started (Call.Name c)) st)).
  destruct (run_body_extends (GetBody (Call.Body c)) st0)
    as (e1 & Ht1 & HP1 & Hv1 & Hc1).
  set (st1 := snd (run_body (GetBody (Call.Body c)) st0)) in *.
  assert (Ht0 : t st0 = t st ++ [Started (Call.Name c)]) by done.
  assert (Hv0 : values st0 = values st) by done.
  assert (Hc0 : Calls st0 = Calls st) by done.
  destruct (fst (run_body (GetBody (Call.Body c)) st0)) as [body|err].
  - rewrite !bind_eq.
    destruct (applyTemplate_extends (Call.QueryStr c) st1)
      as (e2 & Ht2 & HP2 & Hv2 & Hc2).
    set (st2 := snd (applyTemplate (Call.QueryStr c) st1)) in *.
    set (url := fst (applyTemplate (Call.QueryStr c) st1)).
    destruct (http_NewRequest (Call.Method c) url body) as [req|err].
    + rewrite !bind_eq.
      set (req' := if String.eqb (ContentType (Call.Body c)) EmptyString
                   then req
                   else Header_Set req "content-type"
                          (ContentType (Call.Body c))).
      destruct (set_headers_extends (Call.headers c) req' st2)
        as (e3 & Ht3 & HP3 & Hv3 & Hc3).
      set (st3 := snd (set_headers (Call.headers c) req' st2)) in *.
      set (req'' := fst (set_headers (Call.headers c) req' st2)).
      set (st4 := snd (serve ServeHTTP (Call.Name c) url req'' st3)).
      set (resp := fst (serve ServeHTTP (Call.Name c) url req'' st3)).
      assert (Hserve : t st4 = t st3 ++ [Served (Call.Name c) url] /\
                       values st4 = values st3 /\ Calls st4 = Calls st3).
      { subst st4. unfold serve. by destruct (ServeHTTP (r st3) req''). }
      destruct Hserve as (Ht4 & Hv4 & Hc4).
      destruct (handle_response_log c resp st4)
        as (tail & o & Hlog & Ht5 & Hv5 & Hc5).
      exists (Started (Call.Name c) :: (e1 ++ e2 ++ e3) ++
              Served (Call.Name c) url :: tail), o.
      split.
      { apply call_served; [|done]. rewrite !Forall_app.
        repeat split; eapply Forall_impl; eauto using render_is_setup. }
      rewrite Ht5, Hv5, Hc5, Ht4, Hv4, Hc4, Ht3, Hv3, Hc3, Ht2, Hv2, Hc2,
        Ht1, Hv1, Hc1, Ht0, Hv0, Hc0.
      repeat split. rewrite <- ?app_assoc. simpl. by rewrite <- ?app_assoc.
    + exists (Started (Call.Name c) :: e1 ++ e2 ++ [Failed RequestFailure err]),
        None.
      split.
      { apply call_skipped. rewrite !Forall_app.
        repeat split; try (eapply Forall_impl; eauto using render_is_setup).
        by repeat constructor. }
      simpl. rewrite Ht2, Hv2, Hc2, Ht1, Hv1, Hc1, Ht0, Hv0, Hc0.
      repeat split. rewrite <- ?app_assoc. simpl. by rewrite <- ?app_assoc.
  - exists (Started (Call.Name c) :: e1 ++ [Failed BodyFailure err]), None.
    split.
    { apply call_skipped. rewrite !Forall_app.
      split; [eapply Forall_impl; eauto using render_is_setup|].
      by repeat constructor. }
    simpl. rewrite Ht1, Hv1, Hc1, Ht0, Hv0, Hc0.
    repeat split. rewrite <- ?app_assoc. simpl. by rewrite <- ?app_assoc.
Qed.

Ltac in_cases H :=
  repeat (rewrite ?elem_of_cons, ?elem_of_app, ?elem_of_nil in H);
  repeat match type of H with
         | _ \/ _ => destruct H as [H|H]
         end.

Ltac log_absurd :=
  solve [ discriminate
        | contradiction
        | match goal with
          | HP : Forall _ ?l, H : _ ∈ ?l |- _ =>
              apply (proj1 (Forall_forall _ l) HP) in H; simpl in H;
              contradiction
          end ].

Lemma setup_quiet (e : event) :
  is_setup e -> ~ is_stored e /\ ~ is_checked e.
Proof. destruct e; simpl; tauto. Qed.

Lemma read_failure_quiet (e : event) :
  is_read_failure e -> ~ is_stored e /\ ~ is_checked e.
Proof. destruct e; simpl; tauto. Qed.

Lemma check_not_stored (e : event) : is_check e -> ~ is_stored e.
Proof. destruct e; simpl; tauto. Qed.

Lemma run_calls_cons (c : Call RespObject) (cs : list (Call RespObject))
    (st : St) :
  run_calls' (c :: cs) st = run_calls' cs (snd (run_call' c st)).
Proof. simpl. by rewrite bind_eq. Qed.

Lemma run_calls_app (cs1 cs2 : list (Call RespObject)) (st : St) :
  run_calls' (cs1 ++ cs2) st = run_calls' cs2 (snd (run_calls' cs1 st)).
Proof.
  revert st. induction cs1 as [|c cs1 IH]; intros st; [done|].
  rewrite <- app_comm_cons, !run_calls_cons. apply IH.
Qed.

Lemma call_events_log (c : Call RespObject) (st : St) :
  exists o,
    call_log json_Unmarshal_into c (call_events' c st) o /\
    t (snd (run_call' c st)) = t st ++ call_events' c st /\
    values (snd (run_call' c st)) =
      store_with (Call.Name c) o (values st) /\
    Calls (snd (run_call' c st)) = Calls st.
Proof.
  destruct (run_call_log c st) as (evs & o & Hlog & Ht & Hv & Hc).
  exists o. unfold call_events. by rewrite (log_since_app _ _ evs Ht).
Qed.

Lemma run_calls_log (cs : list (Call RespObject)) (st : St) :
  t (snd (run_calls' cs st)) = t st ++ concat (run_log' cs st) /\
  Calls (snd (run_calls' cs st)) = Calls st.
Proof.
  revert st. induction cs as [|c cs IH]; intros st.
  - simpl. by rewrite app_nil_r.
  - rewrite run_calls_cons. simpl.
    destruct (call_events_log c st) as (o & _ & Ht & _ & Hc).
    destruct (IH (snd (run_call' c st))) as [IHt IHc].
    rewrite IHt, IHc, Ht, Hc. by rewrite <- app_assoc.
Qed.

(** *** What the shapes of a log say *)

Lemma call_log_started (c : Call RespObject) (evs : list event)
    (o : option value) :
  call_log json_Unmarshal_into c evs o ->
  started_names evs = [Call.Name c].
Proof.
  assert (Hquiet : forall (P : event -> Prop),
            (forall e, P e -> forall n, e <> Started n) ->
            forall l, Forall P l -> started_names l = []).
  { intros P HP l. induction 1 as [|e l He _ IH]; [done|].
    unfold started_names in *. destruct e; simpl; try done.
    by destruct (HP _ He name). }
  assert (Hsetup : forall l, Forall is_setup l -> started_names l = []).
  { apply Hquiet. by intros [] ? ?. }
  assert (Hread : forall l, Forall is_read_failure l -> started_names l = []).
  { apply Hquiet. by intros [] ? ?. }
  assert (Hcheck : forall l, Forall is_check l -> started_names l = []).
  { apply Hquiet. by intros [] ? ?. }
  unfold started_names in *.
  destruct 1 as [pre Hpre|pre url tail o Hpre Htail]; simpl.
  - by rewrite Hsetup.
  - rewrite omap_app, Hsetup by done. simpl. f_equal.
    destruct Htail
      as [checks Hc|rb errs target e He _ _|rb errs checks He Hc _]; simpl.
    + by rewrite Hcheck.
    + by rewrite omap_app, Hread.
    + rewrite omap_app, Hread by done. simpl. by rewrite Hcheck.
Qed.

Lemma call_log_captured (c : Call RespObject) (evs : list event)
    (o : option value) :
  call_log json_Unmarshal_into c evs o ->
  ((exists rb, BodyRead (Call.Name c) rb ∈ evs) /\
   (forall msg, Failed DecodeFailure msg ∉ evs)) <-> is_Some o.
Proof.
  destruct 1 as [pre Hpre|pre url tail o Hpre Htail].
  - split; [|by intros []]. intros [[rb Hin] _]. in_cases Hin; log_absurd.
  - destruct Htail as [checks Hc|rb errs target e He _ _|rb errs checks He Hc _].
    + split; [|by intros []]. intros [[rb Hin] _]. in_cases Hin; log_absurd.
    + split; [|by intros []]. intros [_ Hno]. destruct (Hno e).
      rewrite elem_of_cons, elem_of_app, !elem_of_cons, elem_of_app.
      right. right. right. right. right. apply list_elem_of_singleton. done.
    + split; [done|]. intros _. split.
      * exists rb. rewrite elem_of_cons, elem_of_app, !elem_of_cons. tauto.
      * intros msg Hin. in_cases Hin; log_absurd.
Qed.

Lemma call_log_stored_value (c : Call RespObject) (evs : list event)
    (o : option value) (rb : string) :
  call_log json_Unmarshal_into c evs o ->
  BodyRead (Call.Name c) rb ∈ evs ->
  (forall msg, Failed DecodeFailure msg ∉ evs) ->
  o = Some (VMap (fst (json_Unmarshal_map rb None))) /\
  Stored (Call.Name c) (VMap (fst (json_Unmarshal_map rb None))) ∈ evs /\
  typed_decode_ok json_Unmarshal_into c rb.
Proof.
  destruct 1 as [pre Hpre|pre url tail o Hpre Htail]; intros Hin Hno.
  - in_cases Hin; log_absurd.
  - destruct Htail
      as [checks Hc|rb' errs target e He _ _|rb' errs checks He Hc Hok].
    + in_cases Hin; log_absurd.
    + destruct (Hno e).
      rewrite elem_of_cons, elem_of_app, !elem_of_cons, elem_of_app.
      right. right. right. right. right. by apply list_elem_of_singleton.
    + assert (rb = rb') as ->.
      { in_cases Hin; try log_absurd. by injection Hin. }
      repeat split; [|done].
      rewrite elem_of_cons, elem_of_app, !elem_of_cons, elem_of_app,
        elem_of_cons. tauto.
Qed.

Lemma call_log_no_target (c : Call RespObject) (evs : list event)
    (o : option value) :
  call_log json_Unmarshal_into c evs o ->
  Call.respObject c = None ->
  forall msg, Failed DecodeFailure msg ∉ evs.
Proof.
  destruct 1 as [pre Hpre|pre url tail o Hpre Htail]; intros Hnone msg Hin.
  - in_cases Hin; log_absurd.
  - destruct Htail
      as [checks Hc|rb errs target e He Htarget _|rb errs checks He Hc _].
    + in_cases Hin; log_absurd.
    + congruence.
    + in_cases Hin; log_absurd.
Qed.

Lemma call_log_order (c : Call RespObject) (evs : list event)
    (o : option value) :
  call_log json_Unmarshal_into c evs o ->
  (Forall (fun e => ~ is_stored e) evs /\ o = None)
  \/ exists pre rb v post,
      evs = pre ++ Stored (Call.Name c) v :: post /\
      o = Some v /\
      BodyRead (Call.Name c) rb ∈ pre /\
      Forall (fun e => ~ is_stored e /\ ~ is_checked e) pre /\
      Forall (fun e => ~ is_stored e) post.
Proof.
  assert (Hs : forall l, Forall is_setup l ->
                         Forall (fun e => ~ is_stored e /\ ~ is_checked e) l)
    by (intros l Hl; eapply Forall_impl; [exact Hl|apply setup_quiet]).
  assert (Hr : forall l, Forall is_read_failure l ->
                         Forall (fun e => ~ is_stored e /\ ~ is_checked e) l)
    by (intros l Hl; eapply Forall_impl;
        [exact Hl|apply read_failure_quiet]).
  assert (Hc : forall l, Forall is_check l ->
                         Forall (fun e => ~ is_stored e) l)
    by (intros l Hl; eapply Forall_impl;
        [exact Hl|apply check_not_stored]).
  assert (Hw : forall l, Forall (fun e => ~ is_stored e /\ ~ is_checked e) l ->
                         Forall (fun e => ~ is_stored e) l)
    by (intros l Hl; eapply Forall_impl; [exact Hl|simpl; tauto]).
  destruct 1 as [pre Hpre|pre url tail o Hpre Htail].
  - left. split; [|done]. constructor; [simpl; tauto|]. auto.
  - destruct Htail
      as [checks Hck|rb errs target e He _ _|rb errs checks He Hck _].
    + left. split; [|done]. constructor; [simpl; tauto|].
      apply Forall_app. split; [auto|]. constructor; [simpl; tauto|auto].
    + left. split; [|done]. constructor; [simpl; tauto|].
      apply Forall_app. split; [auto|]. constructor; [simpl; tauto|].
      constructor; [simpl; tauto|]. apply Forall_app. split; [auto|].
      constructor; [simpl; tauto|constructor].
    + right.
      exists (Started (Call.Name c) :: pre ++
              Served (Call.Name c) url :: BodyRead (Call.Name c) rb :: errs),
        rb, (VMap (fst (json_Unmarshal_map rb None))), checks.
      repeat split.
      * simpl. rewrite <- app_assoc. done.
      * rewrite elem_of_cons, elem_of_app, !elem_of_cons. tauto.
      * constructor; [simpl; tauto|]. apply Forall_app. split; [auto|].
        constructor; [simpl; tauto|]. constructor; [simpl; tauto|auto].
      * auto.
Qed.

Lemma writes_quiet (name : string) (l : list event) :
  Forall (fun e => ~ is_stored e) l -> writes name l = [].
Proof.
  induction 1 as [|e l He _ IH]; [done|].
  unfold writes in *. destruct e; simpl; first [done|by destruct He].
Qed.

Lemma writes_app (name : string) (l1 l2 : list event) :
  writes name (l1 ++ l2) = writes name l1 ++ writes name l2.
Proof. apply omap_app. Qed.

Lemma call_log_writes (c : Call RespObject) (evs : list event)
    (o : option value) (name : string) :
  call_log json_Unmarshal_into c evs o ->
  length (writes name evs) <= 1 /\
  (Call.Name c <> name -> writes name evs = []).
Proof.
  intros Hlog.
  destruct (call_log_order c evs o Hlog)
    as [[Hq _]|(pre & rb & v & post & -> & _ & _ & Hpre & Hpost)].
  - rewrite (writes_quiet name evs Hq). simpl. split; [lia|done].
  - assert (Hpre' : Forall (fun e => ~ is_stored e) pre)
      by (eapply Forall_impl; [exact Hpre|simpl; tauto]).
    rewrite writes_app, (writes_quiet name pre Hpre').
    change (Stored (Call.Name c) v :: post)
      with ([Stored (Call.Name c) v] ++ post).
    rewrite writes_app, (writes_quiet name post Hpost).
    unfold writes. simpl.
    destruct (decide (Call.Name c = name)); simpl; split; (lia || done).
Qed.

(** *** Whole runs *)

Lemma state_after_S (tst : St) (i : nat) (c : Call RespObject) :
  Calls tst !! i = Some c ->
  state_after' (S i) tst = snd (run_call' c (state_after' i tst)).
Proof.
  intros Hi. unfold state_after.
  by rewrite (take_S_r _ _ _ Hi), run_calls_app, run_calls_cons.
Qed.

Lemma state_after_ge (tst : St) (i : nat) :
  length (Calls tst) <= i -> state_after' i tst = Run' tst.
Proof. intros Hi. unfold state_after, Run. by rewrite take_ge. Qed.

Lemma run_call_values (c : Call RespObject) (st : St) :
  (captured' c st /\
   exists v, values (snd (run_call' c st)) = <[Call.Name c := v]> (values st))
  \/ (~ captured' c st /\ values (snd (run_call' c st)) = values st).
Proof.
  destruct (call_events_log c st) as (o & Hlog & _ & Hv & _).
  pose proof (call_log_captured c _ o Hlog) as Hcap.
  destruct o as [v|]; simpl in Hv.
  - left. split; [apply Hcap; eauto|eauto].
  - right. split; [|done]. intros Hc. apply Hcap in Hc. by destruct Hc.
Qed.

Lemma run_log_started (cs : list (Call RespObject)) (st : St) :
  started_names (concat (run_log' cs st)) = Call.Name <$> cs.
Proof.
  revert st. induction cs as [|c cs IH]; intros st; [done|].
  simpl. unfold started_names in *. rewrite omap_app, IH.
  destruct (call_events_log c st) as (o & Hlog & _).
  apply call_log_started in Hlog. unfold started_names in Hlog.
  by rewrite Hlog.
Qed.

Lemma started_names_elem (n : string) (l : list event) :
  n ∈ started_names l -> Started n ∈ l.
Proof.
  induction l as [|e l IH]; [by intros ?%elem_of_nil|].
  unfold started_names in *.
  destruct e; simpl; rewrite ?elem_of_cons;
    try solve [intros ?; right; auto].
  intros [->|?]; [by left|right; auto].
Qed.

Lemma run_log_writes (name : string) (cs : list (Call RespObject)) :
  forall st : St,
    (name ∉ Call.Name <$> cs -> writes name (concat (run_log' cs st)) = [])
    /\ (NoDup (Call.Name <$> cs) ->
        length (writes name (concat (run_log' cs st))) <= 1).
Proof.
  induction cs as [|c cs IH]; intros st; [simpl; split; auto|].
  destruct (call_events_log c st) as (o & Hlog & _).
  destruct (call_log_writes c _ o name Hlog) as [Hone Hnone].
  destruct (IH (snd (run_call' c st))) as [IH1 IH2].
  simpl. rewrite writes_app, length_app. split.
  - rewrite elem_of_cons. intros Hnot.
    rewrite Hnone by (intros <-; apply Hnot; by left).
    rewrite IH1 by (intros ?; apply Hnot; by right). done.
  - rewrite NoDup_cons. intros [Hc Hcs].
    destruct (decide (Call.Name c = name)) as [<-|Hne].
    + rewrite IH1 by done. simpl. lia.
    + rewrite Hnone by done. simpl. auto.
Qed.

Lemma log_since_Run (tst : St) :
  log_since tst (Run' tst) = concat (run_log' (Calls tst) tst).
Proof.
  apply log_since_app. unfold Run. apply run_calls_log.
Qed.

Lemma applyTemplate_error (s : string) (st : St) (e : error) :
  Apply (values st) s = inr e ->
  applyTemplate s st =
    (EmptyString, snd (emit (Failed RenderFailure e) (st : St))).
Proof. intros He. unfold applyTemplate. by rewrite He, bind_eq. Qed.



(** C6: [Run] never stops early.  Whatever the calls report, the
    iteration of every call of the list begins, in the order of the list,
    each from the state its predecessors left; the log of the run is made
    of the logs of these iterations.  A tester without calls is left as it
    was, so nothing is reported. *)
Theorem Run_visits_every_call (tst : St) :
  started_names (log_since tst (Run' tst)) = Call.Name <$> Calls tst
  /\ (forall i c, Calls tst !! i = Some c ->
                  Started (Call.Name c) ∈ log_since tst (Run' tst) /\
                  state_after' (S i) tst =
                    snd (run_call' c (state_after' i tst)))
  /\ t (Run' tst) = t tst ++ concat (run_log' (Calls tst) tst)
  /\ length (run_log' (Calls tst) tst) = length (Calls tst)
  /\ state_after' (length (Calls tst)) tst = Run' tst
  /\ (Calls tst = [] -> Run' tst = tst).
Proof.
  repeat apply conj.
  - rewrite log_since_Run. apply run_log_started.
  - intros i c Hi. split; [|by apply state_after_S].
    apply started_names_elem. rewrite log_since_Run, run_log_started.
    apply list_elem_of_fmap_2. by apply list_elem_of_lookup_2 in Hi.
  - unfold Run. apply run_calls_log.
  - generalize tst at 2. induction (Calls tst) as [|c cs IH]; intros st;
      simpl; [done|]. by rewrite IH.
  - by apply state_after_ge.
  - intros Hnil. unfold Run. by rewrite Hnil.
Qed.


End RunnerFacts.

(** ** The runner on the example scenarios *)






(** * Further properties *)

(** ** Built-in checkers *)

Section CheckerFacts.
Context {rt : GoRuntime} {RespObject : Type}.

(** X1: [ExpectStatus] passes exactly when the status code of the response
    is the expected one, whatever the body and the decoded object; when it
    fails, its message gives the expected and the actual code, and the two
    are printed differently. *)
Theorem ExpectStatus_passes_iff
    (st : Z) (r : response) (body : string) (o : option RespObject) :
  (ExpectStatus st r body o = None <-> StatusCode r = st)
  /\ (forall e,
        ExpectStatus st r body o = Some e ->
        e = "Bad status code: expected " +:+ pretty st +:+ ", got " +:+
            pretty (StatusCode r)
        /\ pretty st <> pretty (StatusCode r)).
Proof.
  unfold ExpectStatus. case_bool_decide as Hst.
  - split; [split; [done|congruence]|].
    intros e [= <-]. split; [done|]. intros Heq. apply Hst.
    symmetry. by apply (inj pretty).
  - split; [done|]. by intros e.
Qed.

Lemma fields_loop_passes (m : option (gmap string value))
    (fields : list string) :
  fields_loop m fields = None <->
  Forall (fun f => is_Some (map_index m f)) fields.
Proof.
  induction fields as [|f fields IH]; simpl; [by split; auto|].
  rewrite Forall_cons. destruct (map_index m f) as [x|] eqn:Hf.
  - rewrite IH. split; [by split; eauto|tauto].
  - split; [done|]. by intros [[] _].
Qed.

Lemma fields_loop_fails (m : option (gmap string value))
    (fields : list string) (e : error) :
  fields_loop m fields = Some e ->
  exists pre f post,
    fields = pre ++ f :: post /\
    Forall (fun f => is_Some (map_index m f)) pre /\
    map_index m f = None /\
    e = "Missing expected field '" +:+ f +:+ "'".
Proof.
  induction fields as [|f fields IH]; simpl; [done|].
  destruct (map_index m f) as [x|] eqn:Hf.
  - intros (pre & f' & post & -> & Hpre & Hf' & ->)%IH.
    exists (f :: pre), f', post. repeat split; [|done].
    constructor; [by rewrite Hf|done].
  - intros [= <-]. by exists [], f, fields.
Qed.

(** X2: on a body that decodes to an object, [ExpectJSONFields] passes
    exactly when every expected field is a key of the object (so with no
    expected field it always passes); when it fails it names the first
    expected field that is missing.  A body that does not decode fails
    with the error of the decoder, whatever the fields. *)
Theorem ExpectJSONFields_checks_presence
    (fields : list string) (r : response) (body : string)
    (o : option RespObject) (m : option (gmap string value))
    (err : option error) :
  json_Unmarshal_map body (Some ∅) = (m, err) ->
  match err with
  | Some e => ExpectJSONFields fields r body o = Some e
  | None =>
      (ExpectJSONFields fields r body o = None <->
       Forall (fun f => is_Some (map_index m f)) fields)
      /\ (forall e,
            ExpectJSONFields fields r body o = Some e ->
            exists pre f post,
              fields = pre ++ f :: post /\
              Forall (fun f => is_Some (map_index m f)) pre /\
              map_index m f = None /\
              e = "Missing expected field '" +:+ f +:+ "'")
  end.
Proof.
  intros Hdec. unfold ExpectJSONFields. rewrite Hdec.
  destruct err as [e|]; [done|]. split.
  - apply fields_loop_passes.
  - intros e. apply fields_loop_fails.
Qed.

(** X3: on a body that decodes to a list, [ExpectListLength] passes
    exactly when the list has the expected length, so it never passes for
    a negative length; [ExpectListNonEmpty] passes exactly when
    [ExpectListLength 0] fails, and a body that decodes to the nil list
    (JSON null) counts as empty.  A body that does not decode fails both
    with the error of the decoder. *)
Theorem ExpectListLength_checks_length
    (len : Z) (r : response) (body : string) (o : option RespObject)
    (l : option (list value)) (err : option error) :
  json_Unmarshal_list body (Some []) = (l, err) ->
  match err with
  | Some e =>
      ExpectListLength len r body o = Some e /\
      ExpectListNonEmpty r body o = Some e
  | None =>
      (ExpectListLength len r body o = None <-> slice_len l = len)
      /\ ((len < 0)%Z -> ExpectListLength len r body o <> None)
      /\ (ExpectListNonEmpty r body o = None <->
          ExpectListLength 0 r body o <> None)
      /\ (l = None ->
          ExpectListLength 0 r body o = None /\
          ExpectListNonEmpty r body o = Some "Expected a non empty list")
  end.
Proof.
  intros Hdec. unfold ExpectListLength, ExpectListNonEmpty. rewrite Hdec.
  destruct err as [e|]; [done|].
  assert (Hpos : (0 <= slice_len l)%Z) by (destruct l; simpl; lia).
  split; [|split; [|split]].
  - case_bool_decide as Hl; split; done.
  - intros Hneg. case_bool_decide as Hl; [done|lia].
  - repeat case_bool_decide; try lia; split; try done; by intros [].
  - intros ->. by simpl.
Qed.

(** X4: on a body that decodes to an object, [ExpectJSONBranch] passes
    for the empty path; for a path of one node it passes exactly when the
    node is a key of the object, and no value is compared; for a path of
    two nodes it fails when the first is missing, looks the second up as
    a key when the first is an object, and otherwise compares the string
    form of the value of the first with the second. *)
Theorem ExpectJSONBranch_short_paths
    (r : response) (body : string) (o : option RespObject)
    (m : option (gmap string value)) :
  json_Unmarshal_map body (Some ∅) = (m, None) ->
  ExpectJSONBranch [] r body o = None
  /\ (forall n,
        ExpectJSONBranch [n] r body o = None <-> is_Some (map_index m n))
  /\ (forall n lastNode,
        ExpectJSONBranch [n; lastNode] r body o =
          match map_index m n with
          | None => Some ("Missing node '" +:+ n +:+ "'")
          | Some v =>
              if is_object v then
                match v with
                | VMap child =>
                    match map_index child lastNode with
                    | Some _ => None
                    | None => Some ("Missing node '" +:+ lastNode +:+ "'")
                    end
                | _ => None
                end
              else if String.eqb (fmt_Sprint v) lastNode then None
              else Some ("Wrong value: expected '" +:+ lastNode +:+
                         "', got '" +:+ fmt_Sprint v +:+ "'")
          end).
Proof.
  intros Hdec. unfold ExpectJSONBranch. rewrite Hdec. repeat apply conj.
  - done.
  - intros n. simpl. destruct (map_index m n) as [v|].
    + split; [by eauto|]. intros _. by destruct v.
    + split; [done|]. by intros [].
  - intros n lastNode. simpl.
    destruct (map_index m n) as [v|]; [|done].
    destruct v as [| | | | |child|]; try done. simpl.
    destruct (map_index child lastNode) as [v'|]; [|done]. by destruct v'.
Qed.

(** X5: the index [i+1] at which [ExpectJSONBranch] reads the last node
    is always within the path: from the start of the loop, and from any
    later iteration, the out-of-range case is never reached. *)
Theorem ExpectJSONBranch_index_never_out_of_range
    (nodes rest : list string) (i : nat) (m : option (gmap string value)) :
  i + length rest = length nodes ->
  branch_loop nodes i rest m <> Some "index out of range".
Proof.
  revert i m. induction rest as [|n rest IH]; intros i m Hlen; [done|].
  simpl in Hlen. simpl.
  destruct (map_index m n) as [v|]; [|done].
  assert (Hnext : forall m', branch_loop nodes (S i) rest m' <>
                             Some "index out of range")
    by (intros m'; apply IH; lia).
  assert (Hcmp :
    (if bool_decide (Z.of_nat i = Z.of_nat (length nodes) - 2)%Z
     then
       match nodes !! S i with
       | Some lastNode =>
           if String.eqb (fmt_Sprint v) lastNode then None
           else Some ("Wrong value: expected '" +:+ lastNode +:+
                      "', got '" +:+ fmt_Sprint v +:+ "'")
       | None => Some "index out of range"
       end
     else branch_loop nodes (S i) rest m) <> Some "index out of range").
  { case_bool_decide as Hi; [|apply Hnext].
    destruct (branch_index_in_range nodes i Hi) as [lastNode ->].
    by destruct (String.eqb (fmt_Sprint v) lastNode). }
  destruct v; try exact Hcmp. apply Hnext.
Qed.

End CheckerFacts.

Lemma ExpectJSONFields_checks_presence_witness :
  @ExpectJSONFields Ref.runtime unit ["a"] response_200 text_abx None = None.
Proof.
  refine (proj2 (proj1 (ExpectJSONFields_checks_presence (rt := Ref.runtime)
                          (RespObject := unit) ["a"] response_200 text_abx
                          None (Some tree_abx) None _)) _).
  - vm_compute. reflexivity.
  - repeat constructor. eexists. vm_compute. reflexivity.
Defined.

Lemma ExpectListLength_checks_length_witness :
  @ExpectListLength Ref.runtime unit 2 response_200 "[1,2]" None = None.
Proof.
  refine (proj2 (proj1 (ExpectListLength_checks_length (rt := Ref.runtime)
                          (RespObject := unit) 2 response_200 "[1,2]" None
                          (Some [VNum 1; VNum 2]) None _)) _).
  - vm_compute. reflexivity.
  - reflexivity.
Defined.

Lemma ExpectJSONBranch_short_paths_witness :
  @ExpectJSONBranch Ref.runtime unit ["a"] response_200 text_abx None = None.
Proof.
  refine (proj2 (proj1 (proj2 (ExpectJSONBranch_short_paths
                                 (rt := Ref.runtime) (RespObject := unit)
                                 response_200 text_abx None (Some tree_abx) _))
                   "a") _).
  - vm_compute. reflexivity.
  - eexists. vm_compute. reflexivity.
Defined.

Lemma ExpectJSONBranch_index_never_out_of_range_witness :
  @branch_loop Ref.runtime ["a"; "b"] 0 ["a"; "b"] (Some tree_abx) <>
    Some "index out of range".
Proof.
  apply (ExpectJSONBranch_index_never_out_of_range (rt := Ref.runtime)
           ["a"; "b"] ["a"; "b"] 0 (Some tree_abx)).
  reflexivity.
Defined.

(** ** The template functions, further *)

(** X6: what is stored under a name is what [field] finds there: on a
    store where [name] was set to [tree], the path [name] yields [tree],
    a longer path starting with [name] is the walk of the rest from
    [tree], and a path starting with another name is walked as before. *)
Theorem fieldTmpl_after_insert
    (v : Values) (name other : string) (tree : value) (key : list string) :
  other <> name ->
  fieldTmpl (<[name := tree]> v) [name] = inl tree
  /\ fieldTmpl (<[name := tree]> v) (name :: key) = field_loop tree key
  /\ fieldTmpl (<[name := tree]> v) (other :: key) = fieldTmpl v (other :: key).
Proof.
  intros Hne. unfold fieldTmpl. simpl.
  rewrite lookup_insert_eq, lookup_insert_ne by done. done.
Qed.

Lemma fieldTmpl_after_insert_witness :
  fieldTmpl (<["create" := VMap (Some tree_id7)]> ∅) ["create"; "id"] =
    field_loop (VMap (Some tree_id7)) ["id"].
Proof.
  refine (proj1 (proj2 (fieldTmpl_after_insert ∅ "create" "fetch"
                          (VMap (Some tree_id7)) ["id"] _))).
  discriminate.
Defined.

(** X7: an error of [field] is final and a success needs every prefix to
    succeed: when [field] fails on a path it fails with the same error on
    every longer path, when it succeeds on a path it succeeded on each
    prefix, and below a value that is not map-like every further key
    fails with an error naming the type of that value. *)
Theorem fieldTmpl_prefix
    (v : Values) (key more : list string) :
  (forall e, fieldTmpl v key = inr e -> fieldTmpl v (key ++ more) = inr e)
  /\ (forall x, fieldTmpl v (key ++ more) = inl x ->
                exists n, fieldTmpl v key = inl n /\ field_loop n more = inl x)
  /\ (forall n, fieldTmpl v key = inl n -> map_like n = false ->
                more <> [] ->
                fieldTmpl v (key ++ more) =
                  inr ("cannot dereference " +:+ type_name n)).
Proof.
  unfold fieldTmpl. rewrite field_loop_app. repeat apply conj.
  - by intros e ->.
  - intros x. destruct (field_loop (VMap (Some v)) key) as [n|e]; [|done].
    intros Hx. by exists n.
  - intros n -> Hn Hmore. destruct more as [|k more]; [done|]. simpl.
    by rewrite (field_step_not_map_like n k Hn).
Qed.

(** X8: when [json] succeeds its result is a string, the text the
    marshaller gave for what [field] found; on a path whose last key is
    absent on a map-like node it yields the JSON text of the placeholder
    string, not an error. *)
Theorem jsonFieldTmpl_yields_text {rt : GoRuntime}
    (v : Values) (pre : list string) (k : string) (n : value)
    (text : string) :
  field_loop (VMap (Some v)) pre = inl n ->
  map_like n = true ->
  has_key n k = false ->
  json_Marshal (VStr no_value) = inl text ->
  jsonFieldTmpl v (pre ++ [k]) = inl (VStr text)
  /\ (forall key x,
        jsonFieldTmpl v key = inl x ->
        exists i marshalled,
          fieldTmpl v key = inl i /\ json_Marshal i = inl marshalled /\
          x = VStr marshalled).
Proof.
  intros Hpre Hn Hk Htext. split.
  - unfold jsonFieldTmpl, fieldTmpl. rewrite field_loop_app, Hpre. simpl.
    by rewrite (field_step_missing n k Hn Hk), Htext.
  - intros key x. unfold jsonFieldTmpl.
    destruct (fieldTmpl v key) as [i|e]; [|done].
    destruct (json_Marshal i) as [marshalled|e] eqn:Hm; [|done].
    intros [= <-]. by exists i, marshalled.
Qed.

Lemma jsonFieldTmpl_yields_text_witness :
  @jsonFieldTmpl Ref.runtime ∅ ([] ++ ["a"]) =
    inl (VStr (Ref.quote (String Ref.backslash "u003cno value" +:+
                          String Ref.backslash "u003e"))).
Proof.
  refine (proj1 (jsonFieldTmpl_yields_text (rt := Ref.runtime) ∅ [] "a"
                   (VMap (Some ∅)) _ _ _ _ _)); vm_compute; reflexivity.
Defined.

(** ** The runner, further *)

Section RunnerMore.
Context {rt : GoRuntime} {decl : BodyDecl}.
Context {Handler RespObject : Type}.
Context (ServeHTTP : Handler -> request -> Handler * response).
Context (json_Unmarshal_into :
           string -> RespObject -> RespObject * option error).

Abbreviation St := (Tester Handler RespObject).
Abbreviation run_call' := (run_call ServeHTTP json_Unmarshal_into).
Abbreviation run_calls' := (run_calls ServeHTTP json_Unmarshal_into).
Abbreviation Run' := (Run ServeHTTP json_Unmarshal_into).
Abbreviation call_events' := (call_events ServeHTTP json_Unmarshal_into).
Abbreviation run_log' := (run_log ServeHTTP json_Unmarshal_into).

Lemma omap_quiet {B} (f : event -> option B) (P : event -> Prop)
    (l : list event) :
  (forall e, P e -> f e = None) -> Forall P l -> omap f l = [].
Proof.
  intros HP. induction 1 as [|e l He _ IH]; [done|].
  simpl. by rewrite (HP e He).
Qed.

Ltac quiet_omap :=
  repeat match goal with
         | HP : Forall ?P ?l |- context [omap ?f ?l] =>
             rewrite (omap_quiet f P l
                        ltac:(intros [| [] ?| | | |]; simpl; tauto) HP)
         end.

(** *** The handler state *)

Lemma applyTemplate_r (s : string) (st : St) :
  r (snd (applyTemplate s st)) = r st.
Proof. unfold applyTemplate. by destruct (Apply (values st) s). Qed.

Lemma run_body_r (p : body_prog) (st : St) :
  r (snd (run_body p st)) = r st.
Proof.
  revert st. induction p as [res|s k IH]; intros st; simpl; [done|].
  by rewrite bind_eq, IH, applyTemplate_r.
Qed.

Lemma set_headers_r (hs : list (string * string)) (req : request) (st : St) :
  r (snd (set_headers hs req st)) = r st.
Proof.
  revert req st. induction hs as [|[k v] hs IH]; intros req st; simpl;
    [done|].
  by rewrite !bind_eq, IH, !applyTemplate_r.
Qed.

(** *** The checker loop *)

Lemma checked_indices_cons (name : string) (n : nat) (res : option error)
    (l : list event) :
  checked_indices (Checked name n res :: l) = n :: checked_indices l.
Proof. done. Qed.

Lemma checked_results_cons (name : string) (n : nat) (res : option error)
    (l : list event) :
  checked_results (Checked name n res :: l) = res :: checked_results l.
Proof. done. Qed.

Lemma check_reports_checked (name : string) (n : nat) (res : option error)
    (l : list event) :
  check_reports (Checked name n res :: l) = check_reports l.
Proof. done. Qed.

Lemma checked_indices_failed (kind : failure) (msg : string)
    (l : list event) :
  checked_indices (Failed kind msg :: l) = checked_indices l.
Proof. done. Qed.

Lemma checked_results_failed (kind : failure) (msg : string)
    (l : list event) :
  checked_results (Failed kind msg :: l) = checked_results l.
Proof. done. Qed.

Lemma check_reports_failed (msg : string) (l : list event) :
  check_reports (Failed CheckFailure msg :: l) = msg :: check_reports l.
Proof. done. Qed.

Lemma run_checkers_checks (name : string) (resp : response)
    (respBody : string) (o : option RespObject)
    (cs : list (Checker RespObject)) :
  forall (n : nat) (st : St),
    let st' := snd (run_checkers name resp respBody o n cs st) in
    exists checks,
      t st' = t st ++ checks /\
      checks_of name resp respBody o n cs checks /\
      values st' = values st /\ Calls st' = Calls st /\ r st' = r st.
Proof.
  induction cs as [|checker cs IH]; intros n st; simpl.
  - exists []. rewrite app_nil_r. repeat split; auto.
  - rewrite !bind_eq.
    destruct (checker resp respBody o) as [e|] eqn:Herr.
    + set (st2 := snd (report CheckFailure (name +:+ ": " +:+ e)
                         (snd (emit (Checked name n (Some e)) st)))).
      destruct (IH (S n) st2) as (checks & Ht & Hchecks & Hv & Hc & Hr).
      destruct Hchecks as (Hall & Hidx & Hres & Hrep).
      exists (Checked name n (Some e) ::
              Failed CheckFailure (name +:+ ": " +:+ e) :: checks).
      rewrite Ht, Hv, Hc, Hr. subst st2. unfold checks_of.
      rewrite checked_indices_cons, checked_indices_failed,
        checked_results_cons, checked_results_failed,
        check_reports_checked, check_reports_failed, Hidx, Hres, Hrep.
      simpl. rewrite Herr.
      repeat split; auto;
        first [by rewrite <- !app_assoc
              |by rewrite ?Hres
              |by repeat (constructor; [by simpl|])].
    + set (st2 := snd (ret tt (snd (emit (Checked name n None) st)))).
      destruct (IH (S n) st2) as (checks & Ht & Hchecks & Hv & Hc & Hr).
      destruct Hchecks as (Hall & Hidx & Hres & Hrep).
      exists (Checked name n None :: checks).
      rewrite Ht, Hv, Hc, Hr. subst st2. unfold checks_of.
      rewrite checked_indices_cons, checked_results_cons,
        check_reports_checked, Hidx, Hres, Hrep.
      simpl. rewrite Herr.
      repeat split; auto;
        first [by rewrite <- !app_assoc
              |by rewrite ?Hres
              |by repeat (constructor; [by simpl|])].
Qed.

(** *** What an iteration logs, case by case *)

Lemma handle_response_cases (c : Call RespObject) (resp : response)
    (st : St) :
  let st' := snd (handle_response json_Unmarshal_into c resp st) in
  r st' = r st /\ Calls st' = Calls st /\
  ((exists checks,
       resp_Body resp = None /\
       checks_of (Call.Name c) resp EmptyString (Call.respObject c) 0
         (Call.checkers c) checks /\
       t st' = t st ++ checks /\ values st' = values st)
   \/ (exists rb rerr errs,
         resp_Body resp = Some (rb, rerr) /\
         Forall is_read_failure errs /\
         ((exists target e,
              Call.respObject c = Some target /\
              snd (json_Unmarshal_into rb target) = Some e /\
              t st' = t st ++ BodyRead (Call.Name c) rb :: errs ++
                      [Failed DecodeFailure e] /\
              values st' = values st)
          \/ (exists obj checks,
                checks_of (Call.Name c) resp rb obj 0 (Call.checkers c)
                  checks /\
                t st' = t st ++ BodyRead (Call.Name c) rb :: errs ++
                        Stored (Call.Name c)
                          (VMap (fst (json_Unmarshal_map rb None))) ::
                        checks /\
                values st' =
                  <[Call.Name c := VMap (fst (json_Unmarshal_map rb None))]>
                    (values st))))).
Proof.
  simpl. unfold handle_response.
  destruct (resp_Body resp) as [[rb rerr]|].
  - rewrite !bind_eq.
    set (st1 := snd (emit (BodyRead (Call.Name c) rb) st)).
    set (st2 := snd (match rerr with
                     | Some e => report ReadFailure e
                     | None => ret tt
                     end st1)).
    assert (Hread : exists errs,
               Forall is_read_failure errs /\
               t st2 = t st ++ BodyRead (Call.Name c) rb :: errs /\
               values st2 = values st /\ Calls st2 = Calls st /\
               r st2 = r st).
    { subst st2 st1. destruct rerr as [e|]; simpl.
      - exists [Failed ReadFailure e]. rewrite <- app_assoc.
        repeat split; auto. by repeat constructor.
      - exists []. repeat split; auto. }
    destruct Hread as (errs & Herrs & Ht2 & Hv2 & Hc2 & Hr2). clearbody st2.
    assert (Hstore : forall obj,
               let st' := snd (store_and_check c resp rb obj st2) in
               r st' = r st /\ Calls st' = Calls st /\
               exists checks,
                 checks_of (Call.Name c) resp rb obj 0 (Call.checkers c)
                   checks /\
                 t st' = t st ++ BodyRead (Call.Name c) rb :: errs ++
                         Stored (Call.Name c)
                           (VMap (fst (json_Unmarshal_map rb None))) ::
                         checks /\
                 values st' =
                   <[Call.Name c := VMap (fst (json_Unmarshal_map rb None))]>
                     (values st)).
    { intros obj. simpl. unfold store_and_check. rewrite bind_eq.
      destruct (run_checkers_checks (Call.Name c) resp rb obj
                  (Call.checkers c) 0
                  (snd (set_value (Call.Name c)
                          (VMap (fst (json_Unmarshal_map rb None))) st2)))
        as (checks & Ht & Hchecks & Hv & Hc & Hr).
      rewrite Hr, Hc, Ht, Hv. simpl. rewrite Hr2, Hc2, Ht2, Hv2.
      split; [done|]. split; [done|]. exists checks.
      split; [done|]. split; [|done].
      rewrite <- ?app_assoc. simpl. by rewrite <- ?app_assoc. }
    destruct (Call.respObject c) as [target|] eqn:Htarget.
    + destruct (json_Unmarshal_into rb target) as [target' err] eqn:Hdec.
      destruct err as [e|].
      * simpl. rewrite Hr2, Hc2, Ht2, Hv2. repeat split; try done.
        right. exists rb, rerr, errs. repeat split; try done.
        left. exists target, e. rewrite Hdec.
        repeat split; try done. by rewrite <- app_assoc.
      * destruct (Hstore (Some target')) as (? & ? & checks & ? & ? & ?).
        repeat split; try done. right. exists rb, rerr, errs.
        repeat split; try done. right. by exists (Some target'), checks.
    + destruct (Hstore None) as (? & ? & checks & ? & ? & ?).
      repeat split; try done. right. exists rb, rerr, errs.
      repeat split; try done. right. by exists None, checks.
  - destruct (run_checkers_checks (Call.Name c) resp EmptyString
                (Call.respObject c) (Call.checkers c) 0 st)
      as (checks & Ht & Hchecks & Hv & Hc & Hr).
    repeat split; try done. left. by exists checks.
Qed.

Lemma run_call_cases (c : Call RespObject) (st : St) :
  let st' := snd (run_call' c st) in
  (exists pre kind err,
      Forall is_render pre /\ (kind = BodyFailure \/ kind = RequestFailure) /\
      t st' = t st ++ Started (Call.Name c) :: pre ++ [Failed kind err] /\
      values st' = values st /\ r st' = r st)
  \/ (exists pre url req st4,
        Forall is_render pre /\
        t st4 = t st ++ Started (Call.Name c) :: pre ++
                [Served (Call.Name c) url] /\
        values st4 = values st /\ Calls st4 = Calls st /\
        r st4 = fst (ServeHTTP (r st) req) /\
        st' = snd (handle_response json_Unmarshal_into c
                     (snd (ServeHTTP (r st) req)) st4)).
Proof.
  simpl. unfold run_call. rewrite !bind_eq.
  set (st0 := snd (emit (Started (Call.Name c)) st)).
  destruct (run_body_extends (GetBody (Call.Body c)) st0)
    as (e1 & Ht1 & HP1 & Hv1 & Hc1).
  pose proof (run_body_r (GetBody (Call.Body c)) st0) as Hr1.
  set (st1 := snd (run_body (GetBody (Call.Body c)) st0)) in *.
  assert (Ht0 : t st0 = t st ++ [Started (Call.Name c)]) by done.
  assert (Hv0 : values st0 = values st) by done.
  assert (Hc0 : Calls st0 = Calls st) by done.
  assert (Hr0 : r st0 = r st) by done.
  destruct (fst (run_body (GetBody (Call.Body c)) st0)) as [body|err].
  - rewrite !bind_eq.
    destruct (applyTemplate_extends (Call.QueryStr c) st1)
      as (e2 & Ht2 & HP2 & Hv2 & Hc2).
    pose proof (applyTemplate_r (Call.QueryStr c) st1) as Hr2.
    set (st2 := snd (applyTemplate (Call.QueryStr c) st1)) in *.
    set (url := fst (applyTemplate (Call.QueryStr c) st1)).
    destruct (http_NewRequest (Call.Method c) url body) as [req|err].
    + rewrite !bind_eq.
      set (req' := if String.eqb (ContentType (Call.Body c)) EmptyString
                   then req
                   else Header_Set req "content-type"
                          (ContentType (Call.Body c))).
      destruct (set_headers_extends (Call.headers c) req' st2)
        as (e3 & Ht3 & HP3 & Hv3 & Hc3).
      pose proof (set_headers_r (Call.headers c) req' st2) as Hr3.
      set (st3 := snd (set_headers (Call.headers c) req' st2)) in *.
      set (req'' := fst (set_headers (Call.headers c) req' st2)).
      right.
      exists (e1 ++ e2 ++ e3), url, req'',
        (snd (serve ServeHTTP (Call.Name c) url req'' st3)).
      assert (Hserve :
        serve ServeHTTP (Call.Name c) url req'' st3 =
        (snd (ServeHTTP (r st3) req''),
         {| t := t st3 ++ [Served (Call.Name c) url];
            r := fst (ServeHTTP (r st3) req'');
            Calls := Calls st3; values := values st3 |})).
      { unfold serve. by destruct (ServeHTTP (r st3) req''). }
      rewrite Hserve. cbn [fst snd t r values Calls].
      rewrite Ht3, Hv3, Hc3, Hr3, Ht2, Hv2, Hc2, Hr2, Ht1, Hv1, Hc1, Hr1,
        Ht0, Hv0, Hc0, Hr0.
      repeat split; try done.
      * rewrite !Forall_app. done.
      * rewrite <- ?app_assoc. simpl. by rewrite <- ?app_assoc.
    + left. exists (e1 ++ e2), RequestFailure, err.
      change (t (snd (report RequestFailure err st2)))
        with (t st2 ++ [Failed RequestFailure err]).
      change (values (snd (report RequestFailure err st2)))
        with (values st2).
      change (r (snd (report RequestFailure err st2))) with (r st2).
      rewrite Ht2, Hv2, Hr2, Ht1, Hv1, Hr1, Ht0, Hv0, Hr0.
      repeat split; try done; [by apply Forall_app|by right|].
      rewrite <- ?app_assoc. simpl. by rewrite <- ?app_assoc.
  - left. exists e1, BodyFailure, err.
    change (t (snd (report BodyFailure err st1)))
      with (t st1 ++ [Failed BodyFailure err]).
    change (values (snd (report BodyFailure err st1))) with (values st1).
    change (r (snd (report BodyFailure err st1))) with (r st1).
    rewrite Ht1, Hv1, Hr1, Ht0, Hv0, Hr0.
    repeat split; try done; [by left|].
    rewrite <- ?app_assoc. simpl. by rewrite <- ?app_assoc.
Qed.

Lemma call_events_shape (c : Call RespObject) (st : St) :
  let st' := snd (run_call' c st) in
  let name := Call.Name c in
  let v := fun rb => VMap (fst (json_Unmarshal_map rb None)) in
  (exists pre kind err,
      Forall is_render pre /\ (kind = BodyFailure \/ kind = RequestFailure) /\
      call_events' c st = Started name :: pre ++ [Failed kind err] /\
      values st' = values st /\ r st' = r st)
  \/ (exists pre url req,
        Forall is_render pre /\
        r st' = fst (ServeHTTP (r st) req) /\
        ((exists checks,
             resp_Body (snd (ServeHTTP (r st) req)) = None /\
             checks_of name (snd (ServeHTTP (r st) req)) EmptyString
               (Call.respObject c) 0 (Call.checkers c) checks /\
             call_events' c st =
               Started name :: pre ++ Served name url :: checks /\
             values st' = values st)
         \/ (exists rb rerr errs,
               resp_Body (snd (ServeHTTP (r st) req)) = Some (rb, rerr) /\
               Forall is_read_failure errs /\
               ((exists target e,
                    Call.respObject c = Some target /\
                    snd (json_Unmarshal_into rb target) = Some e /\
                    call_events' c st =
                      Started name :: pre ++ Served name url ::
                      BodyRead name rb :: errs ++ [Failed DecodeFailure e] /\
                    values st' = values st)
                \/ (exists obj checks,
                      checks_of name (snd (ServeHTTP (r st) req)) rb obj 0
                        (Call.checkers c) checks /\
                      call_events' c st =
                        Started name :: pre ++ Served name url ::
                        BodyRead name rb :: errs ++
                        Stored name (v rb) :: checks /\
                      values st' = <[name := v rb]> (values st)))))).
Proof.
  simpl. unfold call_events.
  destruct (run_call_cases c st)
    as [(pre & kind & err & Hpre & Hkind & Ht & Hv & Hr)
       |(pre & url & req & st4 & Hpre & Ht4 & Hv4 & Hc4 & Hr4 & ->)].
  - left. exists pre, kind, err. repeat split; try done.
    by apply log_since_app.
  - right. exists pre, url, req.
    destruct (handle_response_cases c (snd (ServeHTTP (r st) req)) st4)
      as (Hr & _ & [(checks & Hnone & Hchecks & Ht & Hv)
                   |(rb & rerr & errs & Hsome & Herrs &
                     [(target & e & Htarget & He & Ht & Hv)
                     |(obj & checks & Hchecks & Ht & Hv)])]).
    + split; [done|]. split; [by rewrite Hr|]. left. exists checks.
      split; [done|]. split; [done|]. split; [|by rewrite Hv].
      apply log_since_app. rewrite Ht, Ht4.
      rewrite <- ?app_assoc. simpl. by rewrite <- ?app_assoc.
    + split; [done|]. split; [by rewrite Hr|]. right. exists rb, rerr, errs.
      split; [done|]. split; [done|]. left. exists target, e.
      split; [done|]. split; [done|]. split; [|by rewrite Hv].
      apply log_since_app. rewrite Ht, Ht4.
      rewrite <- ?app_assoc. simpl. by rewrite <- ?app_assoc.
    + split; [done|]. split; [by rewrite Hr|]. right. exists rb, rerr, errs.
      split; [done|]. split; [done|]. right. exists obj, checks.
      split; [done|]. split; [|by rewrite Hv, Hv4].
      apply log_since_app. rewrite Ht, Ht4.
      rewrite <- ?app_assoc. simpl. by rewrite <- ?app_assoc.
Qed.

Lemma omap_cons_eq {B} (f : event -> option B) (e : event) (l : list event) :
  omap f (e :: l) =
  match f e with
  | Some y => y :: omap f l
  | None => omap f l
  end.
Proof. done. Qed.

Ltac read_log :=
  unfold serves, checked_indices, checked_results, check_reports, writes
    in *;
  repeat first [rewrite omap_app | rewrite omap_cons_eq];
  cbn beta iota; quiet_omap; rewrite ?app_nil_l, ?app_nil_r.

Ltac absurd_in H :=
  repeat (rewrite ?elem_of_cons, ?elem_of_app, ?elem_of_nil in H);
  repeat match type of H with
         | _ \/ _ => destruct H as [H|H]
         end;
  solve [ discriminate
        | contradiction
        | match goal with
          | HP : Forall _ ?l |- _ =>
              apply (proj1 (Forall_forall _ l) HP) in H; simpl in H;
              contradiction
          end ].

(** X9: in an iteration either no checker is called or every checker of
    the call is called exactly once, in the order they were attached, all
    with the same response, body and object, whether or not earlier ones
    failed; each error a checker returns is reported once, as the name of
    the call, a colon and the error.  All of them are called when the
    response was stored; none is called when the typed decode failed or
    the handler was not invoked. *)
Theorem run_call_runs_every_checker (c : Call RespObject) (st : St) :
  let evs := call_events' c st in
  check_reports evs = omap (check_report (Call.Name c)) (checked_results evs)
  /\ (checked_indices evs = [] \/
      (checked_indices evs = seq 0 (length (Call.checkers c)) /\
       exists resp body obj,
         checked_results evs =
           (fun ck => ck resp body obj) <$> Call.checkers c))
  /\ ((exists v, Stored (Call.Name c) v ∈ evs) ->
      checked_indices evs = seq 0 (length (Call.checkers c)))
  /\ ((exists msg, Failed DecodeFailure msg ∈ evs) ->
      checked_indices evs = [])
  /\ (serves evs = [] -> checked_indices evs = []).
Proof.
  simpl.
  destruct (call_events_shape c st)
    as [(pre & kind & err & Hpre & Hkind & -> & _)
       |(pre & url & req & Hpre & _ &
         [(checks & _ & (Hall & Hidx & Hres & Hrep) & -> & _)
         |(rb & rerr & errs & _ & Herrs &
           [(target & e & _ & _ & -> & _)
           |(obj & checks & (Hall & Hidx & Hres & Hrep) & -> & _)])])].
  - destruct Hkind as [-> | ->]; read_log;
      (split; [done|]; split; [by left|];
       split; [intros [v Hin]; absurd_in Hin|]; by split).
  - read_log. rewrite Hidx, Hrep, Hres.
    split; [done|]. split; [right; split; [done|]; eauto|].
    split; [done|]. split; [|done].
    intros [msg Hin]. absurd_in Hin.
  - read_log.
    split; [done|]. split; [by left|].
    split; [intros [v Hin]; absurd_in Hin|]. by split.
  - read_log. rewrite Hidx, Hrep, Hres.
    split; [done|]. split; [right; split; [done|]; eauto|].
    split; [done|]. split; [|done].
    intros [msg Hin]. absurd_in Hin.
Qed.

(** X10: an iteration invokes the handler at most once.  When it does
    not, the iteration ended on a body or request failure, its last
    report, and neither the store nor the state of the handler changed;
    when it does, the state of the handler afterwards is the one that
    invocation returned: decoding, storing and checking do not touch
    it. *)
Theorem run_call_serves_at_most_once (c : Call RespObject) (st : St) :
  let st' := snd (run_call' c st) in
  (serves (call_events' c st) = [] /\
   r st' = r st /\ values st' = values st /\
   exists kind err,
     last (call_events' c st) = Some (Failed kind err) /\
     (kind = BodyFailure \/ kind = RequestFailure))
  \/ (exists url req,
        serves (call_events' c st) = [(Call.Name c, url)] /\
        r st' = fst (ServeHTTP (r st) req)).
Proof.
  simpl.
  destruct (call_events_shape c st)
    as [(pre & kind & err & Hpre & Hkind & -> & Hv & Hr)
       |(pre & url & req & Hpre & Hr &
         [(checks & _ & (Hall & _) & -> & _)
         |(rb & rerr & errs & _ & Herrs &
           [(target & e & _ & _ & -> & _)
           |(obj & checks & (Hall & _) & -> & _)])])].
  - left. split; [|split; [done|split; [done|]]].
    + destruct Hkind as [-> | ->]; by read_log.
    + exists kind, err. split; [|done].
      by rewrite app_comm_cons, last_snoc.
  - right. exists url, req. split; [|done]. by read_log.
  - right. exists url, req. split; [|done]. by read_log.
  - right. exists url, req. split; [|done]. by read_log.
Qed.

Lemma run_log_serves (cs : list (Call RespObject)) :
  forall st : St,
    sublist (fst <$> serves (concat (run_log' cs st))) (Call.Name <$> cs).
Proof.
  induction cs as [|c cs IH]; intros st; [by simpl|].
  simpl. unfold serves in *. rewrite omap_app, fmap_app.
  assert (Hc : fst <$> serves (call_events' c st) = [] \/
               fst <$> serves (call_events' c st) = [Call.Name c]).
  { destruct (call_events_shape c st)
      as [(pre & kind & err & Hpre & Hkind & -> & _)
         |(pre & url & req & Hpre & _ &
           [(checks & _ & (Hall & _) & -> & _)
           |(rb & rerr & errs & _ & Herrs &
             [(target & e & _ & _ & -> & _)
             |(obj & checks & (Hall & _) & -> & _)])])].
    - left. destruct Hkind as [-> | ->]; by read_log.
    - right. by read_log.
    - right. by read_log.
    - right. by read_log. }
  unfold serves in Hc. destruct Hc as [-> | ->]; simpl.
  - apply sublist_cons, IH.
  - apply sublist_skip, IH.
Qed.

(** X11: in a run the handler is invoked at most once for each call, in
    the order of the calls: the names of the calls it is invoked for form
    a sublist of the names of the calls, so there are at most as many
    invocations as calls. *)
Theorem Run_serves_in_call_order (tst : St) :
  sublist (fst <$> serves (log_since tst (Run' tst)))
    (Call.Name <$> Calls tst)
  /\ length (serves (log_since tst (Run' tst))) <= length (Calls tst).
Proof.
  assert (Hsub := run_log_serves (Calls tst) tst).
  rewrite (log_since_Run ServeHTTP json_Unmarshal_into tst).
  split; [done|].
  apply sublist_length in Hsub. by rewrite !length_fmap in Hsub.
Qed.

Lemma run_call_store (c : Call RespObject) (st : St) :
  (values (snd (run_call' c st)) = values st /\
   writes (Call.Name c) (call_events' c st) = [])
  \/ (exists m,
        values (snd (run_call' c st)) =
          <[Call.Name c := VMap m]> (values st) /\
        writes (Call.Name c) (call_events' c st) = [VMap m]).
Proof.
  destruct (call_events_shape c st)
    as [(pre & kind & err & Hpre & Hkind & -> & Hv & _)
       |(pre & url & req & Hpre & _ &
         [(checks & _ & (Hall & _) & -> & Hv)
         |(rb & rerr & errs & _ & Herrs &
           [(target & e & _ & _ & -> & Hv)
           |(obj & checks & (Hall & _) & -> & Hv)])])].
  - left. split; [done|]. destruct Hkind as [-> | ->]; by read_log.
  - left. split; [done|]. by read_log.
  - left. split; [done|]. by read_log.
  - right. exists (fst (json_Unmarshal_map rb None)). split; [done|].
    read_log. by rewrite decide_True.
Qed.

Lemma run_call_writes_other (c : Call RespObject) (st : St)
    (name : string) :
  Call.Name c <> name -> writes name (call_events' c st) = [].
Proof.
  intros Hne.
  destruct (call_events_log ServeHTTP json_Unmarshal_into c st)
    as (o & Hlog & _).
  by apply (call_log_writes json_Unmarshal_into c _ o name Hlog).
Qed.

Lemma run_calls_last_write (name : string) (cs : list (Call RespObject)) :
  forall st : St,
    values (snd (run_calls' cs st)) !! name =
    match last (writes name (concat (run_log' cs st))) with
    | Some v => Some v
    | None => values st !! name
    end.
Proof.
  induction cs as [|c cs IH]; intros st; [done|].
  rewrite (run_calls_cons ServeHTTP json_Unmarshal_into), IH. simpl.
  rewrite writes_app, last_app.
  destruct (last (writes name (concat (run_log' cs (snd (run_call' c st))))))
    as [v|]; [done|].
  destruct (decide (Call.Name c = name)) as [<-|Hne].
  - destruct (run_call_store c st) as [[-> ->]|(m & -> & ->)]; [done|].
    simpl. by rewrite lookup_insert_eq.
  - rewrite (run_call_writes_other c st name Hne). simpl.
    destruct (run_call_store c st) as [[-> _]|(m & -> & _)]; [done|].
    by rewrite lookup_insert_ne.
Qed.

(** X12: after a run, the entry of the store under any name is the last
    value the run wrote under that name, and the entry the store had
    before when the run wrote none; call names need not be distinct. *)
Theorem Run_store_is_last_write (tst : St) (name : string) :
  values (Run' tst) !! name =
  match last (writes name (log_since tst (Run' tst))) with
  | Some v => Some v
  | None => values tst !! name
  end.
Proof.
  rewrite (log_since_Run ServeHTTP json_Unmarshal_into tst).
  apply run_calls_last_write.
Qed.

Lemma run_calls_store (cs : list (Call RespObject)) :
  forall (st : St) (k : string),
    (k ∉ Call.Name <$> cs ->
     values (snd (run_calls' cs st)) !! k = values st !! k)
    /\ (is_Some (values st !! k) ->
        is_Some (values (snd (run_calls' cs st)) !! k))
    /\ (forall v,
          values (snd (run_calls' cs st)) !! k = Some v ->
          values st !! k = Some v \/
          (k ∈ Call.Name <$> cs /\ exists m, v = VMap m)).
Proof.
  induction cs as [|c cs IH]; intros st k.
  { simpl. repeat split; auto. }
  rewrite (run_calls_cons ServeHTTP json_Unmarshal_into).
  destruct (IH (snd (run_call' c st)) k) as (IH1 & IH2 & IH3).
  rewrite fmap_cons, !elem_of_cons.
  assert (Hstep : values (snd (run_call' c st)) = values st \/
                  exists m, values (snd (run_call' c st)) =
                            <[Call.Name c := VMap m]> (values st)).
  { destruct (run_call_store c st) as [[? _]|(m & ? & _)]; eauto. }
  split; [|split].
  - intros Hk. rewrite IH1 by tauto.
    destruct Hstep as [-> | [m ->]]; [done|].
    apply lookup_insert_ne. intros Heq. apply Hk. left. by symmetry.
  - intros Hsome. apply IH2.
    destruct Hstep as [-> | [m ->]]; [done|].
    destruct (decide (Call.Name c = k)) as [->|Hne].
    + rewrite lookup_insert_eq. eauto.
    + by rewrite lookup_insert_ne.
  - intros v [Hv|[Hin Hm]]%IH3; [|right; split; [by right|done]].
    destruct Hstep as [Heq | [m Heq]]; rewrite Heq in Hv; [by left|].
    destruct (decide (k = Call.Name c)) as [->|Hne].
    + rewrite lookup_insert_eq in Hv. injection Hv as <-.
      right. split; [by left|eauto].
    + rewrite lookup_insert_ne in Hv by done. by left.
Qed.

(** X13: a run never removes an entry of the store and never touches an
    entry whose key is not the name of one of its calls; every entry of
    the store afterwards is either the entry that was there before or a
    map written under the name of a call. *)
Theorem Run_store_never_shrinks (tst : St) (k : string) :
  (is_Some (values tst !! k) ->
   is_Some (values (Run ServeHTTP json_Unmarshal_into tst) !! k))
  /\ (k ∉ Call.Name <$> Calls tst ->
      values (Run ServeHTTP json_Unmarshal_into tst) !! k = values tst !! k)
  /\ (forall v,
        values (Run ServeHTTP json_Unmarshal_into tst) !! k = Some v ->
        values tst !! k = Some v \/
        (k ∈ Call.Name <$> Calls tst /\ exists m, v = VMap m)).
Proof.
  destruct (run_calls_store (Calls tst) tst k) as (H1 & H2 & H3).
  unfold Run. auto.
Qed.

(** X14: what a call captured is what the templates of the following
    calls see: when an iteration read a response body and the typed decode
    did not fail, then on the store it leaves [field] with a path
    starting with the name of the call walks the rest of the path from
    the decoded body, so one further key yields the value of that key in
    the body, or the placeholder when the body has no such key (or did
    not decode to an object); it never fails. *)
Theorem captured_response_is_visible
    (c : Call RespObject) (st : St) (rb : string) (key : list string) :
  BodyRead (Call.Name c) rb ∈ call_events' c st ->
  (forall msg, Failed DecodeFailure msg ∉ call_events' c st) ->
  let store := values (snd (run_call' c st)) in
  let retJson := fst (json_Unmarshal_map rb None) in
  fieldTmpl store (Call.Name c :: key) = field_loop (VMap retJson) key
  /\ (forall k,
        fieldTmpl store [Call.Name c; k] =
          inl (match map_index retJson k with
               | Some x => x
               | None => VStr no_value
               end)).
Proof.
  intros Hread Hok store retJson.
  destruct (call_events_log ServeHTTP json_Unmarshal_into c st)
    as (o & Hlog & _ & Hv & _).
  destruct (call_log_stored_value json_Unmarshal_into c _ o rb Hlog Hread Hok)
    as (-> & _).
  subst store. rewrite Hv. simpl. unfold fieldTmpl. simpl.
  rewrite lookup_insert_eq. split; [done|].
  intros k. simpl. subst retJson.
  by destruct (map_index (fst (json_Unmarshal_map rb None)) k).
Qed.

Lemma check_report_elem (name msg : string) (results : list (option error)) :
  msg ∈ omap (check_report name) results ->
  exists e, msg = name +:+ ": " +:+ e.
Proof.
  induction results as [|[e|] results IH]; simpl.
  - by intros ?%elem_of_nil.
  - rewrite elem_of_cons. intros [->|?]; eauto.
  - done.
Qed.

Lemma call_check_reports (c : Call RespObject) (st : St) (msg : string) :
  msg ∈ check_reports (call_events' c st) ->
  exists e, msg = Call.Name c +:+ ": " +:+ e.
Proof.
  destruct (call_events_shape c st)
    as [(pre & kind & err & Hpre & Hkind & -> & _)
       |(pre & url & req & Hpre & _ &
         [(checks & _ & (Hall & Hidx & Hres & Hrep) & -> & _)
         |(rb & rerr & errs & _ & Herrs &
           [(target & e & _ & _ & -> & _)
           |(obj & checks & (Hall & Hidx & Hres & Hrep) & -> & _)])])].
  - destruct Hkind as [-> | ->]; read_log; by intros ?%elem_of_nil.
  - read_log. rewrite Hrep. apply check_report_elem.
  - read_log. by intros ?%elem_of_nil.
  - read_log. rewrite Hrep. apply check_report_elem.
Qed.

Lemma run_log_check_reports (msg : string) (cs : list (Call RespObject)) :
  forall st : St,
    msg ∈ check_reports (concat (run_log' cs st)) ->
    exists c e, c ∈ cs /\ msg = Call.Name c +:+ ": " +:+ e.
Proof.
  induction cs as [|c cs IH]; intros st; simpl.
  - by intros ?%elem_of_nil.
  - unfold check_reports. rewrite omap_app, elem_of_app.
    intros [Hin|Hin].
    + destruct (call_check_reports c st msg Hin) as [e ->].
      exists c, e. split; [by left|done].
    + destruct (IH _ Hin) as (c' & e & Hc' & ->).
      exists c', e. split; [by right|done].
Qed.


End RunnerMore.

Lemma captured_response_is_visible_witness :
  fieldTmpl
    (values (snd (run_call (rt := Ref.runtime) (decl := example_decl)
                    (fixed_handler text_id7) Ref.Unmarshal_list call_create
                    (NewTester [] tt [call_create; call_fetch]))))
    (Call.Name call_create :: ["id"]) =
  field_loop (VMap (fst (Ref.Unmarshal_map text_id7 None))) ["id"].
Proof.
  assert (Hevs : call_events (rt := Ref.runtime) (decl := example_decl)
                   (fixed_handler text_id7) Ref.Unmarshal_list call_create
                   (NewTester [] tt [call_create; call_fetch]) =
                 [Started "create"; Served "create" "/items";
                  BodyRead "create" text_id7;
                  Stored "create" (VMap (Some tree_id7));
                  Checked "create" 0 None])
    by (vm_compute; reflexivity).
  refine (proj1 (captured_response_is_visible (rt := Ref.runtime)
                   (decl := example_decl) (fixed_handler text_id7)
                   Ref.Unmarshal_list call_create
                   (NewTester [] tt [call_create; call_fetch])
                   text_id7 ["id"] _ _)).
  - rewrite Hevs. rewrite !elem_of_cons. tauto.
  - intros msg. rewrite Hevs. rewrite !not_elem_of_cons.
    repeat split; try discriminate. apply not_elem_of_nil.
Defined.

(** ** Adding a call and running *)

Section AddThenRun.
Context {rt : GoRuntime} {decl : BodyDecl}.
Context {Handler RespObject : Type}.
Context (ServeHTTP : Handler -> request -> Handler * response).
Context (json_Unmarshal_into :
           string -> RespObject -> RespObject * option error).

Abbreviation St := (Tester Handler RespObject).
Abbreviation run_call' := (run_call ServeHTTP json_Unmarshal_into).
Abbreviation run_calls' := (run_calls ServeHTTP json_Unmarshal_into).
Abbreviation Run' := (Run ServeHTTP json_Unmarshal_into).

Lemma ret_blind {A} (a : A) : calls_blind (ret a : M St A).
Proof. by intros cs st. Qed.

Lemma bind_blind {A B} (m : M St A) (k : A -> M St B) :
  calls_blind m -> (forall a, calls_blind (k a)) -> calls_blind (bind m k).
Proof.
  intros Hm Hk cs st. rewrite !bind_eq, Hm. simpl. apply Hk.
Qed.

Lemma emit_blind (e : event) : calls_blind (emit e : M St unit).
Proof. by intros cs st. Qed.

Lemma applyTemplate_blind (s : string) :
  calls_blind (applyTemplate s : M St string).
Proof.
  intros cs st. unfold applyTemplate. simpl.
  by destruct (Apply (values st) s).
Qed.

Lemma run_body_blind (p : body_prog) : calls_blind (run_body p : M St _).
Proof.
  induction p as [res|s k IH]; simpl.
  - apply ret_blind.
  - apply bind_blind; [apply applyTemplate_blind|done].
Qed.

Lemma set_headers_blind (hs : list (string * string)) (req : request) :
  calls_blind (set_headers hs req : M St request).
Proof.
  revert req. induction hs as [|[k v] hs IH]; intros req; simpl.
  - apply ret_blind.
  - apply bind_blind; [apply applyTemplate_blind|]. intros k'.
    apply bind_blind; [apply applyTemplate_blind|]. intros v'. apply IH.
Qed.

Lemma serve_blind (name url : string) (req : request) :
  calls_blind (serve ServeHTTP name url req : M St response).
Proof.
  intros cs st. unfold serve. simpl. by destruct (ServeHTTP (r st) req).
Qed.

Lemma run_checkers_blind (name : string) (resp : response)
    (respBody : string) (o : option RespObject)
    (cs : list (Checker RespObject)) (n : nat) :
  calls_blind (run_checkers name resp respBody o n cs : M St unit).
Proof.
  revert n. induction cs as [|checker cs IH]; intros n; simpl.
  - apply ret_blind.
  - apply bind_blind; [apply emit_blind|]. intros _.
    apply bind_blind; [|intros _; apply IH].
    destruct (checker resp respBody o); [apply emit_blind|apply ret_blind].
Qed.

Lemma handle_response_blind (c : Call RespObject) (resp : response) :
  calls_blind (handle_response json_Unmarshal_into c resp : M St unit).
Proof.
  assert (Hstore : forall rb o,
             calls_blind (store_and_check c resp rb o : M St unit)).
  { intros rb o. unfold store_and_check.
    apply bind_blind; [by intros cs st|].
    intros _. apply run_checkers_blind. }
  unfold handle_response. destruct (resp_Body resp) as [[rb rerr]|].
  - apply bind_blind; [apply emit_blind|]. intros _.
    apply bind_blind.
    { destruct rerr; [apply emit_blind|apply ret_blind]. }
    intros _. destruct (Call.respObject c) as [target|]; [|apply Hstore].
    destruct (json_Unmarshal_into rb target) as [target' [e|]];
      [apply emit_blind|apply Hstore].
  - apply run_checkers_blind.
Qed.

Lemma run_call_blind (c : Call RespObject) : calls_blind (run_call' c).
Proof.
  unfold run_call.
  apply bind_blind; [apply emit_blind|]. intros _.
  apply bind_blind; [apply run_body_blind|]. intros [body|err];
    [|apply emit_blind].
  apply bind_blind; [apply applyTemplate_blind|]. intros url.
  destruct (http_NewRequest (Call.Method c) url body) as [req|err];
    [|apply emit_blind].
  apply bind_blind; [apply set_headers_blind|]. intros req'.
  apply bind_blind; [apply serve_blind|]. intros resp.
  apply handle_response_blind.
Qed.

Lemma run_calls_blind (cs : list (Call RespObject)) :
  calls_blind (run_calls' cs).
Proof.
  induction cs as [|c cs IH]; simpl.
  - apply ret_blind.
  - apply bind_blind; [apply run_call_blind|done].
Qed.

(** X15: running a tester to which a call was added is running the tester
    as it was and then the iteration of the new call: [AddCall] followed
    by [Run] gives the log, the store and the handler state of [Run]
    followed by that iteration, and no step of a run depends on the list
    of calls. *)
Theorem Run_after_AddCall
    (tst : St) (name method querystr : string) (body : any) :
  let c := fst (AddCall tst name method querystr body) in
  let tst' := snd (AddCall tst name method querystr body) in
  Run' tst' = with_calls (Calls tst') (snd (run_call' c (Run' tst)))
  /\ t (Run' tst') = t (snd (run_call' c (Run' tst)))
  /\ values (Run' tst') = values (snd (run_call' c (Run' tst)))
  /\ r (Run' tst') = r (snd (run_call' c (Run' tst)))
  /\ (forall c0 : Call RespObject, calls_blind (run_call' c0)).
Proof.
  simpl.
  set (c := Call.mk name method querystr _ [] None []).
  set (tst' := {| t := t tst; r := r tst; values := values tst;
                  Calls := Calls tst ++ [c] |}).
  assert (Hrun : Run' tst' =
                 with_calls (Calls tst ++ [c]) (snd (run_call' c (Run' tst)))).
  { unfold Run. change (Calls tst') with (Calls tst ++ [c]).
    rewrite (run_calls_app ServeHTTP json_Unmarshal_into).
    change tst' with (with_calls (Calls tst ++ [c]) tst).
    rewrite (run_calls_blind (Calls tst)). simpl.
    rewrite bind_eq, (run_call_blind c). done. }
  rewrite Hrun. repeat split; try done. apply run_call_blind.
Qed.

End AddThenRun.

